(** * PageRank: a shallow embedding of [pagerank.py]

    The development models the three estimators of the program,
    [transition_model], [sample_pagerank] and [iterate_pagerank]
    (with its helper [iterate]), and proves properties of them.

    Modelling conventions.
    - A Python [dict] is an insertion-ordered association list with
      unique keys; [setitem] overwrites in place or appends.
    - A Python [set] of page names is a [gset string].
    - Python floats are idealised as exact rationals ([Qc]); Python
      integers are [Z].  Division is fallible ([ZeroDivisionError]).
    - Exceptions are an explicit [Raise] outcome.
    - The module-level global [temp] used by [iterate] and the dict
      objects it refers to live in an explicit store ([state]).
    - The pseudo-random generator is an explicit argument ([rng]). *)

From Stdlib Require Import QArith Qabs Qcanon Qcabs Qround Lqa.
From stdpp Require Import base numbers list strings gmap.

Local Open Scope Qc_scope.
Local Open Scope list_scope.

(** ** Exceptions and the error monad *)

Inductive exn : Type :=
| KeyError (key : string)
| IndexError
| ValueError
| ZeroDivisionError
| NameError
| RecursionError.

Inductive result (A : Type) : Type :=
| Ok (a : A)
| Raise (e : exn).
Arguments Ok {A} a.
Arguments Raise {A} e.

#[global] Instance exn_eq_dec : EqDecision exn.
Proof. solve_decision. Defined.

#[global] Instance result_eq_dec {A} `{EqDecision A} : EqDecision (result A).
Proof. solve_decision. Defined.

#[global] Instance result_ret : MRet result := λ A a, Ok a.
#[global] Instance result_bind : MBind result := λ A B f m,
  match m with
  | Ok a => f a
  | Raise e => Raise e
  end.

(** A [for] loop over [l] threading an accumulator, stopping at the
    first exception. *)
Fixpoint foldM {A B : Type} (f : A → B → result A) (a : A) (l : list B)
  : result A :=
  match l with
  | [] => Ok a
  | x :: l' => a' ← f a x; foldM f a' l'
  end.

(** ** Dictionaries *)

Abbreviation dict V := (list (string * V)).

Definition keys {V} (d : dict V) : list string := d.*1.
Definition vals {V} (d : dict V) : list V := d.*2.
Definition items {V} (d : dict V) : list (string * V) := d.
Definition len {V} (d : dict V) : Z := Z.of_nat (length d).

(** [l[i]] on a list. *)
Definition index {A} (l : list A) (i : nat) : result A :=
  match l !! i with
  | Some x => Ok x
  | None => Raise IndexError
  end.

Fixpoint get {V} (d : dict V) (k : string) : option V :=
  match d with
  | [] => None
  | (k', v) :: d' => if decide (k' = k) then Some v else get d' k
  end.

(** [d[k]] *)
Definition getitem {V} (d : dict V) (k : string) : result V :=
  match get d k with
  | Some v => Ok v
  | None => Raise (KeyError k)
  end.

(** [d[k] = v] *)
Fixpoint setitem {V} (d : dict V) (k : string) (v : V) : dict V :=
  match d with
  | [] => [(k, v)]
  | (k', v') :: d' =>
      if decide (k' = k) then (k', v) :: d' else (k', v') :: setitem d' k v
  end.

(** A graph maps each page to the set of pages it links to. *)
Abbreviation graph := (dict (gset string)).

(** ** Numbers *)

Definition DAMPING : Qc := Q2Qc (85 # 100).
Definition SAMPLES : Z := 10000.

(** [x / y] on floats. *)
Definition truediv (x y : Qc) : result Qc :=
  if decide (y = 0) then Raise ZeroDivisionError else Ok (x / y).

(** Nearest integer, ties to even. *)
Definition round_half_even (q : Q) : Z :=
  let f := Qfloor q in
  let r := (q - inject_Z f)%Q in
  match (r ?= 1 # 2)%Q with
  | Lt => f
  | Gt => (f + 1)%Z
  | Eq => if Z.even f then f else (f + 1)%Z
  end.

(** [round(x, ndigits)] for a non-negative number of digits. *)
Definition round (x : Qc) (ndigits : nat) : Qc :=
  let s := inject_Z (10 ^ Z.of_nat ndigits) in
  Q2Qc (inject_Z (round_half_even (x * s)%Q) / s)%Q.

(** ** [transition_model] *)

Definition transition_model (corpus : graph) (page : string)
    (damping_factor : Qc) : result (dict Qc) :=
  let out : dict Qc := [] in
  links ← getitem corpus page;
  if decide (size links = 0%nat) then
    foldM (λ out '(k, v),
             p ← truediv damping_factor (Qc_of_Z (len corpus));
             Ok (setitem out k p))
          out (items corpus)
  else
    foldM (λ out '(k, v),
             if decide (k ∈ links) then
               a ← truediv damping_factor (Qc_of_Z (Z.of_nat (size links)));
               b ← truediv (1 - damping_factor) (Qc_of_Z (len corpus));
               Ok (setitem out k (a + b))
             else
               b ← truediv (1 - damping_factor) (Qc_of_Z (len corpus));
               Ok (setitem out k (round b 4)))
          out (items corpus).

(** ** The [random] module

    The generator is an explicit argument: [randbelow] is the raw
    integer behind the one call to [random.choice], and [random i] is the
    value in [0, 1) returned by the call to [random.random] made inside
    the [i]-th call to [random.choices]. *)

Record rng : Type := Rng { randbelow : nat; random : nat → Qc }.

(** [random.choice(seq)]: [seq[randbelow(len(seq))]], [IndexError] on an
    empty sequence. *)
Definition choice {A} (g : rng) (seq : list A) : result A :=
  index seq (randbelow g `mod` length seq)%nat.

(** [itertools.accumulate]: running sums. *)
Fixpoint accumulate_from (acc : Qc) (l : list Qc) : list Qc :=
  match l with
  | [] => []
  | w :: l' => (acc + w) :: accumulate_from (acc + w) l'
  end.
Definition accumulate (l : list Qc) : list Qc := accumulate_from 0 l.

(** [bisect.bisect_right(a, x, lo, hi)]; the interval shrinks at every
    turn of the loop, so [hi - lo] turns are enough. *)
Fixpoint bisect_loop (turns : nat) (a : list Qc) (x : Qc) (lo hi : nat)
  : result nat :=
  match turns with
  | O => Ok lo
  | S turns' =>
      if decide (lo < hi)%nat then
        let mid := ((lo + hi) `div` 2)%nat in
        am ← index a mid;
        if decide (x < am) then bisect_loop turns' a x lo mid
        else bisect_loop turns' a x (mid + 1)%nat hi
      else Ok lo
  end.
Definition bisect (a : list Qc) (x : Qc) (lo hi : nat) : result nat :=
  bisect_loop (hi - lo) a x lo hi.

(** [random.choices(population, weights)[0]], as CPython implements it:
    the weights are accumulated, a non-positive total is rejected with
    [ValueError], and the element is found by bisection. *)
Definition choices {A} (g : rng) (i : nat) (population : list A)
    (weights : list Qc) : result A :=
  let n := length population in
  let cum_weights := accumulate weights in
  if decide (length cum_weights = n) then
    total ← index cum_weights (length cum_weights - 1);
    if decide (total ≤ 0) then Raise ValueError
    else
      j ← bisect cum_weights (random g i * total) 0 (n - 1);
      index population j
  else Raise ValueError.

(** ** [sample_pagerank] *)

(** The loop [for k, v in results.items(): if k == page: results[k] += 1]. *)
Definition record_visit (results : dict Z) (page : string)
  : result (dict Z) :=
  foldM (λ results '(k, v),
           if decide (k = page) then
             c ← getitem results k;
             Ok (setitem results k (c + 1)%Z)
           else Ok results)
        results (items results).

Definition sample_pagerank (corpus : graph) (damping_factor : Qc) (n : Z)
    (g : rng) : result (dict Qc) :=
  let out : dict Qc := [] in
  results ← foldM (λ results '(k, v), Ok (setitem results k 0%Z))
                  [] (items corpus);
  random_page ← choice g (keys corpus);
  results ← record_visit results random_page;
  sequence ← transition_model corpus random_page damping_factor;
  '(results, sequence) ←
    foldM (λ '(results, sequence) i,
             next_page ← choices g i (keys sequence) (vals sequence);
             results ← record_visit results next_page;
             sequence ← transition_model corpus next_page damping_factor;
             Ok (results, sequence))
          (results, sequence) (seq 0 (Z.to_nat (n - 1)));
  foldM (λ out '(k, v),
           q ← truediv (Qc_of_Z v) (Qc_of_Z n);
           Ok (setitem out k q))
        out (items results).

(** ** The store: heap-allocated dicts and the module global [temp] *)

(** Dict objects are named by their position in the heap. *)
Abbreviation loc := nat (only parsing).

Record state : Type := State {
  heap : list (dict Qc);   (* the dict objects created so far *)
  temp : option loc        (* the global [temp]; [None] while unbound *)
}.

Definition M (A : Type) : Type := state → result A * state.

#[global] Instance M_ret : MRet M := λ A a s, (Ok a, s).
#[global] Instance M_bind : MBind M := λ A B f m s,
  match m s with
  | (Ok a, s') => f a s'
  | (Raise e, s') => (Raise e, s')
  end.

Definition lift {A} (r : result A) : M A := λ s, (r, s).

(** [dict()] *)
Definition new_dict : M loc :=
  λ s, (Ok (length (heap s)), State (heap s ++ [[]]) (temp s)).

(** The current contents of the dict object at [l]. *)
Definition load (l : loc) : M (dict Qc) :=
  λ s, (Ok (default [] (heap s !! l)), s).

(** [l[k] = v], in place. *)
Definition store_item (l : loc) (k : string) (v : Qc) : M unit :=
  λ s, (Ok (), State (alter (λ d, setitem d k v) l (heap s)) (temp s)).

(** Reading and assigning the global name [temp]. *)
Definition load_temp : M loc :=
  λ s, match temp s with
       | Some l => (Ok l, s)
       | None => (Raise NameError, s)
       end.
Definition store_temp (l : loc) : M unit :=
  λ s, (Ok (), State (heap s) (Some l)).

(** [for]-loops in the store monad. *)
Fixpoint foldS {A B : Type} (f : A → B → M A) (a : A) (l : list B) : M A :=
  match l with
  | [] => mret a
  | x :: l' => a' ← f a x; foldS f a' l'
  end.

Definition forS {B : Type} (l : list B) (f : B → M unit) : M unit :=
  foldS (λ _ x, f x) () l.

(** ** [iterate_pagerank] and [iterate] *)

(** [max(l)], [ValueError] on an empty list. *)
Definition pymax (l : list Qc) : result Qc :=
  match l with
  | [] => Raise ValueError
  | x :: l' => Ok (fold_left (λ m y, if decide (m < y) then y else m) l' x)
  end.

(** [depth] is the number of frames the interpreter still allows
    ([sys.getrecursionlimit]); a call beyond it raises [RecursionError]. *)
Fixpoint iterate (depth : nat) (corpus : graph) (values : loc) : M loc :=
  match depth with
  | O => lift (Raise RecursionError)
  | S depth' =>
      t ← new_dict;
      _ ← store_temp t;
      vs ← load values;
      _ ← forS (items vs) (λ '(k, v),
        summation ←
          foldS (λ summation '(key, val),
                   if decide (size val = 0%nat) then
                     d ← load values;
                     x ← lift (getitem d key);
                     q ← lift (truediv x (Qc_of_Z (len corpus)));
                     mret (summation + q)
                   else if decide (k ∈ val) then
                     d ← load values;
                     x ← lift (getitem d key);
                     q ← lift (truediv x (Qc_of_Z (Z.of_nat (size val))));
                     mret (summation + q)
                   else mret summation)
                0 (items corpus);
        c ← lift (truediv (1 - DAMPING) (Qc_of_Z (len corpus)));
        t ← load_temp;
        store_item t k (c + DAMPING * summation));
      pv ← load values;
      let prev := vals pv in
      t ← load_temp;
      cv ← load t;
      let current := vals cv in
      diff ← foldS (λ diff i,
                      a ← lift (index prev i);
                      b ← lift (index current i);
                      mret (diff ++ [Qcabs (a - b)]))
                   [] (seq 0 (length prev));
      m ← lift (pymax diff);
      _ ← (if decide (Q2Qc (1 # 1000) < m) then
             t ← load_temp;
             _ ← iterate depth' corpus t;
             mret ()
           else mret ());
      load_temp
  end.

Definition iterate_pagerank (depth : nat) (corpus : graph)
    (damping_factor : Qc) : M loc :=
  out ← new_dict;
  _ ← forS (items corpus) (λ '(k, v),
         q ← lift (truediv 1 (Qc_of_Z (len corpus)));
         store_item out k q);
  iterate depth corpus out.

(** Running [iterate_pagerank] from a fresh interpreter, and reading the
    returned dict. *)
Definition init_state : state := State [] None.

Definition run_iterate_pagerank (depth : nat) (corpus : graph)
    (damping_factor : Qc) : result (dict Qc) :=
  match iterate_pagerank depth corpus damping_factor init_state with
  | (Ok l, s) => Ok (default [] (heap s !! l))
  | (Raise e, _) => Raise e
  end.

(** ** [crawl]

    The directory is the list of its entries, file name and contents, in
    the order [os.listdir] returns them.  [findall] stands for
    [re.findall] with the link pattern of the program: the list of the
    [href] targets found in a page. *)

(** [s.endswith(suffix)] *)
Definition endswith (s suffix : string) : bool :=
  let n := String.length s in
  let m := String.length suffix in
  (m <=? n)%nat && String.eqb (String.substring (n - m) m s) suffix.

Definition crawl (findall : string → list string)
    (directory : list (string * string)) : result graph :=
  let pages : graph := [] in
  let pages :=
    fold_left (λ (pages : graph) '(filename, contents),
                 if negb (endswith filename ".html") then pages
                 else
                   let links := findall contents in
                   setitem pages filename
                           (list_to_set links ∖ {[filename]}))
              directory pages in
  pages ← foldM (λ (pages : graph) filename,
                   links ← getitem pages filename;
                   Ok (setitem pages filename
                         (filter (λ link, link ∈ keys pages) links)))
                pages (keys pages);
  Ok pages.

(** The entries of a directory that [crawl] reads. *)
Definition html_files (directory : list (string * string))
  : list (string * string) :=
  filter (λ fc, endswith fc.1 ".html" = true) directory.

(** A toy link extractor for the examples: the contents are the target. *)
Definition whole_contents (contents : string) : list string := [contents].

Definition sample_directory : list (string * string) :=
  [("1.html", "2.html"); ("notes.txt", "1.html"); ("2.html", "2.html");
   ("3.html", "4.html")].

(** ** Reference notions used in the statements *)

(** Dict objects have unique keys. *)
Definition is_dict {V} (d : dict V) : Prop := NoDup (keys d).

(** The graph is a closed universe: every link names a page. *)
Definition closed (corpus : graph) : Prop :=
  Forall (λ kv, kv.2 ⊆ list_to_set (keys corpus)) corpus.

Definition Qcsum (l : list Qc) : Qc := foldr Qcplus 0 l.

(** The sample graphs of the specification. *)
Definition single_page : graph := [("a.html", ∅)].
Definition dangling_pair : graph := [("A", ∅); ("B", {["A"]})].
Definition three_pages : graph :=
  [("1.html", {["2.html"]});
   ("2.html", {["1.html"; "3.html"]});
   ("3.html", {["2.html"]})].
Definition seven_pages : graph :=
  [("a", {["b"]}); ("b", {["a"]}); ("c", {["a"]}); ("d", {["a"]});
   ("e", {["a"]}); ("f", {["a"]}); ("g", {["a"]})].

Definition fixed_rng : rng := Rng 0 (λ _, 0).

(** The probability [transition_model] assigns to page [p] when the
    current page links to [links], in a graph of [n] pages. *)
Definition probability (n : Z) (links : gset string) (damping_factor : Qc)
    (p : string) : Qc :=
  if decide (size links = 0%nat) then damping_factor / Qc_of_Z n
  else if decide (p ∈ links) then
    damping_factor / Qc_of_Z (Z.of_nat (size links))
    + (1 - damping_factor) / Qc_of_Z n
  else round ((1 - damping_factor) / Qc_of_Z n) 4.

(** The draws of the sampler succeed when no page has a transition
    distribution of total weight zero or less. *)
Definition positive_total (r : result (dict Qc)) : Prop :=
  match r with
  | Ok sequence => 0 < Qcsum (vals sequence)
  | Raise _ => False
  end.

#[global] Instance positive_total_dec r : Decision (positive_total r).
Proof. destruct r; simpl; apply _. Defined.

Definition positive_weights (corpus : graph) (damping_factor : Qc) : Prop :=
  Forall (λ kv, positive_total (transition_model corpus kv.1 damping_factor))
         corpus.

Definition Zsum (l : list Z) : Z := foldr Z.add 0%Z l.

(** The random walk of the sampler: the starting page is drawn with
    [random.choice] from the pages, and each later page is drawn with
    [random.choices] from the transition model of the page before it;
    [i] numbers the draws. *)
Fixpoint walk_from (corpus : graph) (damping_factor : Qc) (g : rng)
    (i steps : nat) (current : string) : result (list string) :=
  match steps with
  | O => Ok []
  | S steps' =>
      sequence ← transition_model corpus current damping_factor;
      next_page ← choices g i (keys sequence) (vals sequence);
      rest ← walk_from corpus damping_factor g (S i) steps' next_page;
      Ok (next_page :: rest)
  end.

Definition random_walk (corpus : graph) (damping_factor : Qc) (n : Z)
    (g : rng) : result (list string) :=
  start ← choice g (keys corpus);
  rest ← walk_from corpus damping_factor g 0 (Z.to_nat (n - 1)) start;
  Ok (start :: rest).

(** How often page [p] occurs in a walk. *)
Definition visit_count (walk : list string) (p : string) : Z :=
  Z.of_nat (length (filter (λ q, q = p) walk)).

(** The visit counts of a walk, per page of the graph. *)
Definition counts (corpus : graph) (walk : list string) : dict Z :=
  map (λ kv, (kv.1, visit_count walk kv.1)) corpus.

(** The visit counts divided by [n]. *)
Definition frequencies (corpus : graph) (walk : list string) (n : Z)
  : dict Qc :=
  map (λ kv, (kv.1, Qc_of_Z (visit_count walk kv.1) / Qc_of_Z n)) corpus.

(** Incrementing the count of one page. *)
Definition bump (page : string) (results : dict Z) : dict Z :=
  map (λ kv, (kv.1, if decide (kv.1 = page) then (kv.2 + 1)%Z else kv.2))
      results.

(** The body of the sampling loop. *)
Definition sample_step (corpus : graph) (damping_factor : Qc) (g : rng)
  : dict Z * dict Qc → nat → result (dict Z * dict Qc) :=
  λ '(results, sequence) i,
    next_page ← choices g i (keys sequence) (vals sequence);
    results ← record_visit results next_page;
    sequence ← transition_model corpus next_page damping_factor;
    Ok (results, sequence).

(** ** The PageRank recurrence *)

(** The rank a vector gives to a page. *)
Definition rank_of (rank : dict Qc) (i : string) : Qc :=
  default 0 (get rank i).

(** [contribution(i, p)]: what page [i], with outgoing links [links],
    passes on to page [p]. *)
Definition contribution (n : Z) (rank : dict Qc) (p : string)
    (il : string * gset string) : Qc :=
  if decide (size il.2 = 0%nat) then rank_of rank il.1 / Qc_of_Z n
  else if decide (p ∈ il.2) then
    rank_of rank il.1 / Qc_of_Z (Z.of_nat (size il.2))
  else 0.

(** [rank'(p) = (1 - damping) / N + damping * Σ_i contribution(i, p)]. *)
Definition update (damping : Qc) (corpus : graph) (rank : dict Qc)
    (p : string) : Qc :=
  (1 - damping) / Qc_of_Z (len corpus)
  + damping * Qcsum (map (contribution (len corpus) rank p) corpus).

Definition pagerank_step (damping : Qc) (corpus : graph) (rank : dict Qc)
  : dict Qc :=
  map (λ kv, (kv.1, update damping corpus rank kv.1)) rank.

(** Every page at [1 / N]. *)
Definition uniform (corpus : graph) : dict Qc :=
  map (λ kv, (kv.1, 1 / Qc_of_Z (len corpus))) corpus.

(** The [k]-th iterate of the recurrence from the uniform vector. *)
Fixpoint iterates (damping : Qc) (corpus : graph) (k : nat) : dict Qc :=
  match k with
  | O => uniform corpus
  | S k' => pagerank_step damping corpus (iterates damping corpus k')
  end.

Definition Qcmax (x y : Qc) : Qc := if decide (x < y) then y else x.

(** The largest per-page change between two rank vectors. *)
Definition delta (rank rank' : dict Qc) : Qc :=
  foldr Qcmax 0 (map (λ kv, Qcabs (kv.2 - rank_of rank' kv.1)) rank).

Definition threshold : Qc := Q2Qc (1 # 1000).

(** [iterate] without the store: the vector it leaves in [temp]. *)
Fixpoint iterate_pure (depth : nat) (corpus : graph) (rank : dict Qc)
  : result (dict Qc) :=
  match depth with
  | O => Raise RecursionError
  | S depth' =>
      let rank' := pagerank_step DAMPING corpus rank in
      if decide (threshold < delta rank rank') then
        iterate_pure depth' corpus rank'
      else Ok rank'
  end.

(** The share of page [i]'s rank that goes to page [p]. *)
Definition weight (n : Z) (links : gset string) (p : string) : Qc :=
  if decide (size links = 0%nat) then / Qc_of_Z n
  else if decide (p ∈ links) then / Qc_of_Z (Z.of_nat (size links))
  else 0.

(** The sum of the per-page distances between two rank vectors. *)
Definition dist (corpus : graph) (rank rank' : dict Qc) : Qc :=
  Qcsum (map (λ k, Qcabs (rank_of rank k - rank_of rank' k)) (keys corpus)).

(** The vector that gives every page rank 0. *)
Definition zero_rank (corpus : graph) : dict Qc :=
  map (λ kv, (kv.1, 0)) corpus.

(** * Properties *)

(** ** Arithmetic on [Qc] *)

Lemma Qc_eq_Qeq (a b : Qc) : a = b → (this a == this b)%Q.
Proof. by intros ->. Qed.

(** Unfolds the binds of the error monad. *)
Tactic Notation "rsimpl" := cbn [mbind result_bind mret result_ret].
Tactic Notation "rsimpl" "in" hyp(H) :=
  cbn [mbind result_bind mret result_ret] in H.

(** Settles a decidable closed proposition by evaluation. *)
Ltac by_compute := apply (bool_decide_unpack _); vm_compute; exact I.

(** Turns a goal on [Qc] into one on [Q], for [lra]. *)
Ltac qc2q :=
  repeat match goal with
  | H : @eq Qc _ _ |- _ => apply Qc_eq_Qeq in H
  end;
  try apply Qc_is_canon;
  unfold Qcle, Qclt, Qcminus, Qcdiv, Qc_of_Z in *;
  cbn [this Qcplus Qcmult Qcopp Q2Qc Qcinv Qcabs] in *;
  repeat match goal with
  | H : context [Qred _] |- _ => rewrite Qred_correct in H
  | |- context [Qred _] => rewrite Qred_correct
  end;
  unfold Qdiv in *;
  repeat match goal with
  | H : context [Qinv (Qmake ?n ?d)] |- _ =>
      let v := eval compute in (Qinv (Qmake n d)) in
      change (Qinv (Qmake n d)) with v in H
  | |- context [Qinv (Qmake ?n ?d)] =>
      let v := eval compute in (Qinv (Qmake n d)) in
      change (Qinv (Qmake n d)) with v
  end.


Lemma round_half_even_nonneg (q : Q) :
  (0 <= q)%Q → (0 <= round_half_even q)%Z.
Proof.
  intros Hq. unfold round_half_even.
  assert (0 <= Qfloor q)%Z as Hf.
  { change 0%Z with (Qfloor 0). by apply Qfloor_resp_le. }
  destruct (_ ?= _)%Q; [destruct (Z.even _) | |]; lia.
Qed.


Lemma round_nonneg (x : Qc) : 0 ≤ x → 0 ≤ round x 4.
Proof.
  intros Hx. unfold round.
  change (inject_Z (10 ^ Z.of_nat 4)) with (10000 # 1)%Q.
  assert (0 <= round_half_even (x * (10000 # 1)))%Z as H.
  { apply round_half_even_nonneg. qc2q. lra. }
  rewrite Zle_Qle in H. qc2q. change (inject_Z 0) with 0%Q in H. lra.
Qed.

Lemma Qc_of_nat_nonneg (n : nat) : 0 ≤ Qc_of_Z (Z.of_nat n).
Proof. rewrite <-Z2Qc_inj_0. apply (proj1 (Z2Qc_inj_le _ _)). lia. Qed.

Lemma Qc_of_nat_pos (n : nat) : n ≠ 0%nat → 0 < Qc_of_Z (Z.of_nat n).
Proof. intros. rewrite <-Z2Qc_inj_0. apply (proj1 (Z2Qc_inj_lt _ _)). lia. Qed.

Lemma Qcdiv_nonneg (x y : Qc) : 0 ≤ x → 0 < y → 0 ≤ x / y.
Proof.
  intros Hx Hy. unfold Qcdiv. apply Qcmult_nonneg_nonneg; [done |].
  apply Qclt_le_weak. by apply Qcinv_pos.
Qed.

(** ** Sums *)

Lemma Qcsum_app (l k : list Qc) : Qcsum (l ++ k) = Qcsum l + Qcsum k.
Proof.
  unfold Qcsum. induction l as [|x l IH]; simpl.
  - by rewrite Qcplus_0_l.
  - rewrite IH. apply Qcplus_assoc.
Qed.

Lemma Qc_of_nat_S (n : nat) :
  Qc_of_Z (Z.of_nat (S n)) = Qc_of_Z (Z.of_nat n) + 1.
Proof. by rewrite Nat2Z.inj_succ, <-Z.add_1_r, Z2Qc_inj_add, Z2Qc_inj_1. Qed.

Lemma Qcsum_cons (x : Qc) (l : list Qc) : Qcsum (x :: l) = x + Qcsum l.
Proof. done. Qed.

Lemma Qcsum_const {A} (l : list A) (c : Qc) :
  Qcsum (map (λ _, c) l) = Qc_of_Z (Z.of_nat (length l)) * c.
Proof.
  induction l as [|x l IH]; cbn [map length].
  - change (Z.of_nat 0) with 0%Z. rewrite Z2Qc_inj_0. unfold Qcsum. simpl. ring.
  - rewrite Qcsum_cons, IH, Qc_of_nat_S. ring.
Qed.

Lemma Qcsum_ite {A} (P : A → Prop) `{∀ x, Decision (P x)} (l : list A)
    (a b : Qc) :
  Qcsum (map (λ x, if decide (P x) then a else b) l)
  = Qc_of_Z (Z.of_nat (length (filter P l))) * a
    + (Qc_of_Z (Z.of_nat (length l)) - Qc_of_Z (Z.of_nat (length (filter P l)))) * b.
Proof.
  induction l as [|x l IH]; cbn [map length].
  - rewrite filter_nil. cbn [length]. change (Z.of_nat 0) with 0%Z.
    rewrite Z2Qc_inj_0. unfold Qcsum. simpl. ring.
  - rewrite Qcsum_cons, IH, filter_cons.
    destruct (decide (P x)); cbn [length]; rewrite !Qc_of_nat_S; ring.
Qed.

Lemma Qcsum_nonneg (l : list Qc) : Forall (λ x, 0 ≤ x) l → 0 ≤ Qcsum l.
Proof.
  induction 1 as [|x l Hx _ IH]; unfold Qcsum in *; simpl; [done |].
  by apply Qcplus_nonneg_nonneg.
Qed.

(** The pages of a closed link set are counted by filtering the keys. *)
Lemma length_filter_links (ks : list string) (links : gset string) :
  NoDup ks → links ⊆ list_to_set ks →
  length (filter (.∈ links) ks) = size links.
Proof.
  intros Hnd Hsub. unfold size, set_size. simpl.
  apply Permutation_length, NoDup_Permutation.
  - by apply NoDup_filter.
  - apply NoDup_elements.
  - intros x. rewrite list_elem_of_filter, elem_of_elements.
    split; [by intros [? _] |]. intros Hx. split; [done |].
    specialize (Hsub x Hx). by apply elem_of_list_to_set in Hsub.
Qed.

(** ** Properties of the dict operations *)

Lemma get_None_iff {V} (d : dict V) k : get d k = None ↔ k ∉ keys d.
Proof.
  induction d as [|[k' v] d IH]; simpl.
  - split; [intros _; apply not_elem_of_nil | done].
  - rewrite not_elem_of_cons. case_decide; subst.
    + split; [done | intros [? _]; done].
    + rewrite IH. split; [intros ?; split; [congruence | done] | intros [_ ?]; done].
Qed.

Lemma get_Some_elem {V} (d : dict V) k v : get d k = Some v → (k, v) ∈ d.
Proof.
  induction d as [|[k' v'] d IH]; simpl; [done |].
  case_decide; subst.
  - intros [= ->]. left.
  - intros ?. right. auto.
Qed.

Lemma get_elem_Some {V} (d : dict V) k v :
  is_dict d → (k, v) ∈ d → get d k = Some v.
Proof.
  unfold is_dict. induction d as [|[k' v'] d IH]; simpl.
  - intros _ H. by apply elem_of_nil in H.
  - rewrite NoDup_cons. intros [Hk Hd] H. apply elem_of_cons in H as [[= -> ->]|H].
    + by rewrite decide_True.
    + rewrite decide_False; [auto |]. intros ->. apply Hk.
      apply list_elem_of_fmap. by exists (k, v).
Qed.

Lemma setitem_fresh {V} (d : dict V) k v :
  k ∉ keys d → setitem d k v = d ++ [(k, v)].
Proof.
  induction d as [|[k' v'] d IH]; simpl; [done |].
  rewrite not_elem_of_cons. intros [Hne Hk].
  rewrite decide_False by done. by rewrite IH.
Qed.

Lemma keys_setitem_in {V} (d : dict V) k v :
  k ∈ keys d → keys (setitem d k v) = keys d.
Proof.
  induction d as [|[k' v'] d IH]; simpl.
  - intros H. by apply elem_of_nil in H.
  - intros H. case_decide; subst; simpl; [done |].
    apply elem_of_cons in H as [->|H]; [done |].
    f_equal. by apply IH.
Qed.

(** A loop that assigns [out[k] = g k v] for every item of [l] builds
    the dict of the [g k v], in the order of [l]. *)
Lemma foldM_build {V W} (h : dict W → string * V → result (dict W))
    (g : string → V → W) (l : dict V) (acc : dict W) :
  NoDup (keys acc ++ keys l) →
  (∀ out k v, (k, v) ∈ l → h out (k, v) = Ok (setitem out k (g k v))) →
  foldM h acc l = Ok (acc ++ map (λ kv, (kv.1, g kv.1 kv.2)) l).
Proof.
  revert acc. induction l as [|[k v] l IH]; intros acc Hnd Hh; simpl.
  - by rewrite app_nil_r.
  - rewrite Hh by left. simpl.
    assert (k ∉ keys acc) as Hk.
    { apply NoDup_app in Hnd as (_ & Hd & _). intros Hin.
      apply (Hd _ Hin). left. }
    rewrite setitem_fresh by done.
    rewrite IH.
    + by rewrite <-app_assoc.
    + unfold keys in *. rewrite fmap_app, <-app_assoc. exact Hnd.
    + intros out k' v' Hin. apply Hh. by right.
Qed.

Lemma keys_map_build {V W} (g : string → V → W) (l : dict V) :
  keys (map (λ kv, (kv.1, g kv.1 kv.2)) l) = keys l.
Proof. unfold keys. induction l as [|[k v] l IH]; simpl; [done | by f_equal]. Qed.

Lemma get_map_build {V W} (g : string → V → W) (l : dict V) k :
  get (map (λ kv, (kv.1, g kv.1 kv.2)) l) k = g k <$> get l k.
Proof.
  induction l as [|[k' v] l IH]; simpl; [done |].
  case_decide; subst; [done | apply IH].
Qed.

Lemma Qc_of_Z_eq_0 (z : Z) : Qc_of_Z z = 0 → z = 0%Z.
Proof. intros H. apply (f_equal this) in H. simpl in H. by injection H. Qed.

Lemma len_nonzero {V} (d : dict V) kv : kv ∈ d → Qc_of_Z (len d) ≠ 0.
Proof.
  intros Hin H. apply Qc_of_Z_eq_0 in H. unfold len in H.
  destruct d; [by apply elem_of_nil in Hin | simpl in H; lia].
Qed.

Lemma truediv_Ok x y : y ≠ 0 → truediv x y = Ok (x / y).
Proof. intros. unfold truediv. by rewrite decide_False. Qed.

(** ** [transition_model] *)

Lemma transition_model_eq (corpus : graph) page links d :
  is_dict corpus → get corpus page = Some links →
  transition_model corpus page d =
  Ok (map (λ kv, (kv.1, probability (len corpus) links d kv.1)) corpus).
Proof.
  intros Hnd Hget. unfold transition_model, getitem. rewrite Hget. simpl.
  unfold probability. case_decide as Hsz.
  - rewrite (foldM_build _ (λ k _, d / Qc_of_Z (len corpus))); [done | done |].
    intros out k v Hin. rewrite truediv_Ok by eauto using len_nonzero. done.
  - rewrite (foldM_build _ (λ k _,
      if decide (k ∈ links)
      then d / Qc_of_Z (Z.of_nat (size links)) + (1 - d) / Qc_of_Z (len corpus)
      else round ((1 - d) / Qc_of_Z (len corpus)) 4)); [done | done |].
    intros out k v Hin.
    assert (Qc_of_Z (Z.of_nat (size links)) ≠ 0) as Hl.
    { intros H. apply Qc_of_Z_eq_0 in H. lia. }
    case_decide; rewrite ?truediv_Ok by eauto using len_nonzero; done.
Qed.

Lemma transition_model_KeyError (corpus : graph) page d :
  page ∉ keys corpus → transition_model corpus page d = Raise (KeyError page).
Proof.
  intros Hp. apply get_None_iff in Hp.
  unfold transition_model, getitem. by rewrite Hp.
Qed.

Lemma vals_map_build {V W} (g : string → V → W) (l : dict V) :
  vals (map (λ kv, (kv.1, g kv.1 kv.2)) l) = map (λ kv, g kv.1 kv.2) l.
Proof. unfold vals. induction l as [|[k v] l IH]; simpl; [done | by f_equal]. Qed.

Lemma probability_nonneg n links d p :
  (0 < n)%Z → 0 ≤ d → d ≤ 1 → 0 ≤ probability n links d p.
Proof.
  intros Hn Hd0 Hd1.
  assert (0 < Qc_of_Z n) as HN by (rewrite <-Z2Qc_inj_0; by apply (proj1 (Z2Qc_inj_lt _ _))).
  assert (0 ≤ 1 - d) as Hd' by (qc2q; lra).
  unfold probability. repeat case_decide.
  - by apply Qcdiv_nonneg.
  - apply Qcplus_nonneg_nonneg; apply Qcdiv_nonneg; try done.
    by apply Qc_of_nat_pos.
  - apply round_nonneg. by apply Qcdiv_nonneg.
Qed.

(** C4. For a page of the graph, [transition_model] gives every page
    [damping / N] when the page has no outgoing link; otherwise it gives
    [damping / |links| + (1 - damping) / N] to the pages it links to and
    [(1 - damping) / N] rounded to 4 decimal places to the others. *)
Theorem transition_model_probabilities (corpus : graph) page links d p :
  is_dict corpus → get corpus page = Some links → p ∈ keys corpus →
  ∃ out, transition_model corpus page d = Ok out
    ∧ keys out = keys corpus
    ∧ get out p = Some
        (if decide (size links = 0%nat) then d / Qc_of_Z (len corpus)
         else if decide (p ∈ links) then
           d / Qc_of_Z (Z.of_nat (size links)) + (1 - d) / Qc_of_Z (len corpus)
         else round ((1 - d) / Qc_of_Z (len corpus)) 4).
Proof.
  intros Hnd Hget Hp. eexists. split; [by apply transition_model_eq |].
  split.
  - apply (keys_map_build (λ k _, probability (len corpus) links d k)).
  - rewrite (get_map_build (λ k _, probability (len corpus) links d k)).
    destruct (get corpus p) eqn:E; [done |].
    by apply get_None_iff in E.
Qed.

Lemma transition_model_probabilities_witness :
  ∃ out, transition_model three_pages "2.html" DAMPING = Ok out
    ∧ keys out = keys three_pages
    ∧ get out "1.html" = Some
        (if decide (size ({["1.html"; "3.html"]} : gset string) = 0%nat)
         then DAMPING / Qc_of_Z (len three_pages)
         else if decide ("1.html" ∈ ({["1.html"; "3.html"]} : gset string)) then
           DAMPING / Qc_of_Z (Z.of_nat (size ({["1.html"; "3.html"]} : gset string)))
           + (1 - DAMPING) / Qc_of_Z (len three_pages)
         else round ((1 - DAMPING) / Qc_of_Z (len three_pages)) 4).
Proof.
  apply (transition_model_probabilities three_pages "2.html"
           {["1.html"; "3.html"]} DAMPING "1.html").
  - unfold is_dict. by_compute.
  - reflexivity.
  - by_compute.
Defined.

(** C8. [transition_model] called with a page that is not a key of the
    graph fails at once, on the lookup [corpus[page]], with the
    unknown-key condition for that page ([KeyError page]). *)
Theorem transition_model_unknown_page (corpus : graph) page d :
  page ∉ keys corpus → transition_model corpus page d = Raise (KeyError page).
Proof. apply transition_model_KeyError. Qed.

Lemma transition_model_unknown_page_witness :
  transition_model three_pages "4.html" DAMPING = Raise (KeyError "4.html").
Proof.
  apply (transition_model_unknown_page three_pages "4.html" DAMPING).
  by_compute.
Defined.

Lemma map_on_keys {V W} (f : string → W) (l : dict V) :
  map (λ kv, f kv.1) l = map f (keys l).
Proof. induction l as [|[k v] l IH]; simpl; [done | by f_equal]. Qed.

Lemma transition_model_sum_dangling (corpus : graph) links d :
  corpus ≠ [] → size links = 0%nat →
  Qcsum (map (λ kv, probability (len corpus) links d kv.1) corpus) = d.
Proof.
  intros Hne Hsz.
  rewrite (map_ext _ (λ _, d / Qc_of_Z (len corpus))).
  - rewrite Qcsum_const. fold (len corpus).
    assert (Qc_of_Z (len corpus) ≠ 0) as HN.
    { destruct corpus as [|kv c]; [done |]. apply (len_nonzero _ kv). left. }
    field. exact HN.
  - intros kv. unfold probability. by rewrite decide_True.
Qed.



(** The rounding of the unlinked branch alone can also move the sum by
    more than 1e-4: seven pages, one link, damping 0.85. *)
Example transition_model_rounding_drift :
  ∃ out, transition_model seven_pages "a" DAMPING = Ok out
    ∧ ¬ Qcabs (Qcsum (vals out) - 1) ≤ Q2Qc (1 # 10000).
Proof.
  destruct (transition_model seven_pages "a" DAMPING) as [out|e] eqn:E;
    [| exfalso; revert E; by_compute].
  exists out. split; [done |].
  assert (Ok out = transition_model seven_pages "a" DAMPING) as H by done.
  injection H as ->. by_compute.
Qed.



(** ** The [random] module *)

Lemma index_Ok {A} (l : list A) i x : index l i = Ok x ↔ l !! i = Some x.
Proof. unfold index. destruct (l !! i); split; congruence. Qed.

Lemma index_lt {A} (l : list A) i :
  (i < length l)%nat → ∃ x, index l i = Ok x ∧ x ∈ l.
Proof.
  intros Hi. destruct (lookup_lt_is_Some_2 l i Hi) as [x Hx].
  exists x. split; [by apply index_Ok | by eapply list_elem_of_lookup_2].
Qed.

Lemma choice_nonempty {A} (g : rng) (l : list A) :
  l ≠ [] → ∃ x, choice g l = Ok x ∧ x ∈ l.
Proof.
  intros Hl. apply index_lt. apply Nat.mod_upper_bound.
  destruct l; [done | simpl; lia].
Qed.

Lemma choice_empty {A} (g : rng) : choice g (@nil A) = Raise IndexError.
Proof. unfold choice, index. by rewrite lookup_nil. Qed.

Lemma length_accumulate_from acc l :
  length (accumulate_from acc l) = length l.
Proof. revert acc. induction l; intros; simpl; [done | by f_equal]. Qed.

Lemma last_accumulate_cons acc w l :
  accumulate_from acc (w :: l) !! length l = Some (acc + Qcsum (w :: l)).
Proof.
  revert acc w. induction l as [|w' l IH]; intros acc w.
  - simpl. f_equal. unfold Qcsum. simpl. ring.
  - change (accumulate_from acc (w :: w' :: l) !! length (w' :: l))
      with (accumulate_from (acc + w) (w' :: l) !! length l).
    rewrite IH. f_equal. rewrite !Qcsum_cons. ring.
Qed.

Lemma last_accumulate_from acc l :
  l ≠ [] →
  accumulate_from acc l !! (length l - 1)%nat = Some (acc + Qcsum l).
Proof.
  destruct l as [|w l]; [done |]. intros _.
  replace (length (w :: l) - 1)%nat with (length l) by (simpl; lia).
  apply last_accumulate_cons.
Qed.

Lemma bisect_loop_range turns (a : list Qc) x lo hi :
  (lo ≤ hi)%nat → (hi < length a)%nat →
  ∃ j, bisect_loop turns a x lo hi = Ok j ∧ (lo ≤ j ≤ hi)%nat.
Proof.
  revert lo hi.
  induction turns as [|turns IH]; intros lo hi Hle Hhi; cbn [bisect_loop].
  - exists lo. split; [done | lia].
  - case_decide as Hlt; [| exists lo; split; [done | lia]].
    pose proof (Nat.Div0.div_lt_upper_bound (lo + hi) 2 hi) as Hmid.
    pose proof (Nat.div_le_lower_bound (lo + hi) 2 lo) as Hmid'.
    destruct (index_lt a ((lo + hi) `div` 2)) as (am & -> & _); [lia |].
    rsimpl. case_decide.
    + destruct (IH lo ((lo + hi) `div` 2)) as (j & -> & ?); [lia | lia |].
      exists j. split; [done | lia].
    + destruct (IH ((lo + hi) `div` 2 + 1)%nat hi) as (j & -> & ?); [lia | lia |].
      exists j. split; [done | lia].
Qed.

Lemma total_accumulate (weights : list Qc) :
  weights ≠ [] →
  index (accumulate weights) (length (accumulate weights) - 1)
  = Ok (Qcsum weights).
Proof.
  intros Hne. unfold accumulate, index.
  rewrite length_accumulate_from, last_accumulate_from by done.
  by rewrite Qcplus_0_l.
Qed.

(** A draw with positive total weight returns a member of the population. *)
Lemma choices_positive {A} (g : rng) i (population : list A) weights :
  length weights = length population → 0 < Qcsum weights →
  ∃ x, choices g i population weights = Ok x ∧ x ∈ population.
Proof.
  intros Hlen Hpos. unfold choices.
  assert (weights ≠ []) as Hne.
  { intros ->. by apply Qclt_not_eq in Hpos. }
  rewrite total_accumulate by done. unfold accumulate.
  rewrite length_accumulate_from, decide_True by done. rsimpl.
  rewrite decide_False by (by apply Qclt_not_le).
  assert (length population ≠ 0%nat) as Hp.
  { rewrite <-Hlen. destruct weights; [done | simpl; lia]. }
  destruct (bisect_loop_range (length population - 1 - 0)
              (accumulate_from 0 weights) (random g i * Qcsum weights)
              0 (length population - 1)) as (j & Hj & Hr).
  { lia. }
  { rewrite length_accumulate_from. lia. }
  unfold bisect. rewrite Hj. rsimpl.
  apply index_lt. lia.
Qed.

(** A draw whose weights are all zero is rejected. *)
Lemma choices_zero {A} (g : rng) i (population : list A) weights :
  population ≠ [] → length weights = length population →
  Qcsum weights ≤ 0 →
  choices g i population weights = Raise ValueError.
Proof.
  intros Hp Hlen Hsum. unfold choices.
  assert (weights ≠ []) as Hne.
  { intros ->. by destruct population. }
  rewrite total_accumulate by done. unfold accumulate.
  rewrite length_accumulate_from, decide_True by done. rsimpl.
  by rewrite decide_True.
Qed.

(** ** [sample_pagerank] *)

Lemma keys_bump page results : keys (bump page results) = keys results.
Proof.
  unfold bump, keys. induction results as [|[k v] r IH]; simpl; [done | by f_equal].
Qed.

Lemma bump_absent page results :
  page ∉ keys results → bump page results = results.
Proof.
  unfold bump. induction results as [|[k v] r IH]; simpl; [done |].
  rewrite not_elem_of_cons. intros [Hne Hr].
  rewrite decide_False by done. f_equal. by apply IH.
Qed.

Lemma setitem_bump page results c :
  is_dict results → get results page = Some c →
  setitem results page (c + 1)%Z = bump page results.
Proof.
  unfold is_dict. induction results as [|[k v] r IH]; simpl; [done |].
  rewrite NoDup_cons. intros [Hk Hr]. case_decide; subst.
  - intros [= ->]. f_equal. symmetry. by apply bump_absent.
  - intros Hget. f_equal. by apply IH.
Qed.

Lemma record_visit_loop page (acc : dict Z) (l : dict Z) :
  is_dict acc → NoDup (keys l) → keys l ⊆ keys acc →
  foldM (λ results '(k, v),
           if decide (k = page) then
             c ← getitem results k;
             Ok (setitem results k (c + 1)%Z)
           else Ok results) acc l
  = Ok (if decide (page ∈ keys l) then bump page acc else acc).
Proof.
  revert acc. induction l as [|[k v] l IH]; intros acc Hacc Hnd Hsub.
  - cbn [foldM]. rewrite decide_False; [done | apply not_elem_of_nil].
  - cbn [foldM]. change (keys ((k, v) :: l)) with (k :: keys l) in *.
    apply NoDup_cons in Hnd as [Hk Hnd].
    assert (keys l ⊆ keys acc) as Hsub'.
    { intros x Hx. apply Hsub. by right. }
    destruct (decide (k = page)) as [Hkp|Hkp].
    + subst k. unfold getitem.
      destruct (get acc page) as [c|] eqn:Hget.
      2:{ apply get_None_iff in Hget. exfalso. apply Hget, Hsub. left. }
      rsimpl. rewrite setitem_bump by done.
      rewrite IH; [| unfold is_dict; by rewrite keys_bump | done
                   | by rewrite keys_bump].
      rewrite decide_False by done.
      rewrite decide_True by left. done.
    + rsimpl. rewrite IH by done.
      destruct (decide (page ∈ keys l)) as [Hin|Hin].
      * rewrite decide_True by (by right). done.
      * rewrite decide_False; [done |].
        intros [->|?]%elem_of_cons; done.
Qed.

Lemma record_visit_bump results page :
  is_dict results → page ∈ keys results →
  record_visit results page = Ok (bump page results).
Proof.
  intros Hd Hp. unfold record_visit, items.
  rewrite record_visit_loop by done. by rewrite decide_True.
Qed.

Lemma visit_count_snoc walk p k :
  visit_count (walk ++ [p]) k
  = (visit_count walk k + if decide (k = p) then 1 else 0)%Z.
Proof.
  unfold visit_count. rewrite filter_app, length_app, Nat2Z.inj_add.
  f_equal. rewrite filter_cons, filter_nil.
  destruct (decide (p = k)); [rewrite decide_True by done|rewrite decide_False by done];
   done.
Qed.

Lemma keys_counts corpus walk : keys (counts corpus walk) = keys corpus.
Proof. apply (keys_map_build (λ k _, visit_count walk k)). Qed.

Lemma bump_counts corpus walk p :
  bump p (counts corpus walk) = counts corpus (walk ++ [p]).
Proof.
  unfold bump, counts. rewrite map_map. apply map_ext. intros [k v]. simpl.
  rewrite visit_count_snoc. f_equal. case_decide; f_equal; lia.
Qed.

Lemma counts_nil (corpus : graph) :
  is_dict corpus →
  foldM (λ results '(k, v), Ok (setitem results k 0%Z)) [] (items corpus)
  = Ok (counts corpus []).
Proof.
  intros Hd. unfold items, counts.
  by rewrite (foldM_build _ (λ _ _, 0%Z)).
Qed.

Lemma transition_model_keys (corpus : graph) page d sequence :
  is_dict corpus → transition_model corpus page d = Ok sequence →
  keys sequence = keys corpus.
Proof.
  intros Hd Htm. destruct (get corpus page) as [links|] eqn:Hget.
  - rewrite (transition_model_eq corpus page links d Hd Hget) in Htm.
    injection Htm as <-.
    apply (keys_map_build (λ k _, probability (len corpus) links d k)).
  - apply get_None_iff in Hget.
    by rewrite transition_model_KeyError in Htm.
Qed.

Lemma transition_model_known (corpus : graph) page d :
  is_dict corpus → page ∈ keys corpus →
  ∃ sequence, transition_model corpus page d = Ok sequence.
Proof.
  intros Hd Hp. destruct (get corpus page) as [links|] eqn:Hget.
  - eexists. by apply transition_model_eq.
  - by apply get_None_iff in Hget.
Qed.

Lemma choices_elem {A} (g : rng) i (population : list A) weights x :
  choices g i population weights = Ok x → x ∈ population.
Proof.
  unfold choices. case_decide; [| done].
  destruct (index _ _) as [total|]; [| done]. rsimpl.
  case_decide; [done |].
  destruct (bisect _ _ _ _) as [j|]; [| done]. rsimpl.
  intros Hx%index_Ok. by eapply list_elem_of_lookup_2.
Qed.

Lemma sample_loop (corpus : graph) d g steps :
  is_dict corpus →
  ∀ i current sequence visited walk,
    transition_model corpus current d = Ok sequence →
    walk_from corpus d g i steps current = Ok walk →
    ∃ sequence',
      foldM (sample_step corpus d g) (counts corpus visited, sequence)
            (seq i steps)
      = Ok (counts corpus (visited ++ walk), sequence').
Proof.
  intros Hd. induction steps as [|steps IH];
    intros i current sequence visited walk Htm Hwalk.
  - injection Hwalk as <-. exists sequence. simpl. by rewrite app_nil_r.
  - cbn [walk_from] in Hwalk. rewrite Htm in Hwalk. rsimpl in Hwalk.
    destruct (choices g i (keys sequence) (vals sequence)) as [next|] eqn:Hc;
      [| done].
    rsimpl in Hwalk.
    destruct (walk_from corpus d g (S i) steps next) as [rest|] eqn:Hrest;
      [| done].
    injection Hwalk as <-.
    assert (next ∈ keys corpus) as Hnext.
    { rewrite <-(transition_model_keys corpus current d sequence) by done.
      by eapply choices_elem. }
    destruct (transition_model_known corpus next d Hd Hnext) as [sequence2 Htm2].
    destruct (IH (S i) next sequence2 (visited ++ [next]) rest Htm2 Hrest)
      as [sequence' Hloop].
    exists sequence'. cbn [seq foldM]. unfold sample_step at 2.
    rewrite Hc. rsimpl.
    rewrite record_visit_bump;
      [| unfold is_dict; by rewrite keys_counts | by rewrite keys_counts].
    rsimpl. rewrite Htm2. rsimpl. rewrite bump_counts, Hloop.
    by rewrite <-app_assoc.
Qed.

Lemma frequencies_loop (corpus : graph) walk n :
  is_dict corpus → corpus ≠ [] →
  foldM (λ out '(k, v),
           q ← truediv (Qc_of_Z v) (Qc_of_Z n);
           Ok (setitem out k q))
        [] (items (counts corpus walk))
  = if decide (n = 0%Z) then Raise ZeroDivisionError
    else Ok (frequencies corpus walk n).
Proof.
  intros Hd Hne. case_decide as Hn.
  - subst n. destruct corpus as [|[k v] c]; [done |].
    cbn [counts map items foldM]. unfold truediv.
    by rewrite decide_True by apply Z2Qc_inj_0.
  - unfold items.
    rewrite (foldM_build _ (λ _ v, Qc_of_Z v / Qc_of_Z n)).
    + unfold frequencies, counts. by rewrite map_map.
    + simpl. unfold is_dict in Hd. by rewrite keys_counts.
    + intros out k v _. rewrite truediv_Ok; [done |].
      intros H. by apply Qc_of_Z_eq_0 in H.
Qed.

(** The sampler returns the visit frequencies of its random walk. *)
Lemma sample_pagerank_walk (corpus : graph) d n g walk :
  is_dict corpus → corpus ≠ [] →
  random_walk corpus d n g = Ok walk →
  sample_pagerank corpus d n g
  = if decide (n = 0%Z) then Raise ZeroDivisionError
    else Ok (frequencies corpus walk n).
Proof.
  intros Hd Hne Hwalk. unfold random_walk in Hwalk.
  destruct (choice g (keys corpus)) as [start|] eqn:Hstart; [| done].
  rsimpl in Hwalk.
  destruct (walk_from corpus d g 0 (Z.to_nat (n - 1)) start) as [rest|] eqn:Hrest;
    [| done].
  injection Hwalk as <-.
  assert (start ∈ keys corpus) as Hin.
  { unfold choice in Hstart. apply index_Ok in Hstart.
    by eapply list_elem_of_lookup_2. }
  destruct (transition_model_known corpus start d Hd Hin) as [sequence Htm].
  destruct (sample_loop corpus d g (Z.to_nat (n - 1)) Hd 0 start sequence
              [start] rest Htm Hrest) as [sequence' Hloop].
  unfold sample_pagerank. rewrite counts_nil by done. rsimpl.
  rewrite Hstart. rsimpl.
  rewrite record_visit_bump;
    [| unfold is_dict; by rewrite keys_counts | by rewrite keys_counts].
  rsimpl. rewrite Htm. rsimpl. rewrite bump_counts. simpl app at 1.
  change (λ '(results, sequence0) i, _) with (sample_step corpus d g).
  rewrite Hloop. rsimpl.
  by apply frequencies_loop.
Qed.

Lemma Qcsum_pos (l : list Qc) x :
  Forall (λ y, 0 ≤ y) l → x ∈ l → 0 < x → 0 < Qcsum l.
Proof.
  induction 1 as [|y l Hy Hl IH]; intros Hin Hx.
  - by apply elem_of_nil in Hin.
  - rewrite Qcsum_cons. apply elem_of_cons in Hin as [->|Hin].
    + apply Qcplus_pos_nonneg; [done | by apply Qcsum_nonneg].
    + apply Qcplus_nonneg_pos; [done | by apply IH].
Qed.

Lemma Qcsum_plus {A} (f g : A → Qc) (l : list A) :
  Qcsum (map (λ x, f x + g x) l) = Qcsum (map f l) + Qcsum (map g l).
Proof.
  induction l as [|x l IH]; cbn [map].
  - unfold Qcsum. simpl. ring.
  - rewrite !Qcsum_cons, IH. ring.
Qed.

Lemma Qcsum_scale_r {A} (f : A → Qc) (c : Qc) (l : list A) :
  Qcsum (map (λ x, f x * c) l) = Qcsum (map f l) * c.
Proof.
  induction l as [|x l IH]; cbn [map].
  - unfold Qcsum. simpl. ring.
  - rewrite !Qcsum_cons, IH. ring.
Qed.

Lemma closed_links (corpus : graph) page links :
  closed corpus → get corpus page = Some links →
  links ⊆ list_to_set (keys corpus).
Proof.
  intros Hc Hget. apply get_Some_elem in Hget.
  unfold closed in Hc. rewrite Forall_forall in Hc.
  by apply (Hc (page, links)).
Qed.

Lemma transition_model_total_positive (corpus : graph) page links d :
  is_dict corpus → closed corpus → get corpus page = Some links →
  0 < d → d ≤ 1 →
  0 < Qcsum (map (λ kv, probability (len corpus) links d kv.1) corpus).
Proof.
  intros Hd Hc Hget Hd0 Hd1.
  assert (corpus ≠ []) as Hne by (by intros ->).
  assert (0 < len corpus)%Z as Hlen.
  { unfold len. destruct corpus; [done | simpl; lia]. }
  destruct (decide (size links = 0%nat)) as [Hsz|Hsz].
  - by rewrite transition_model_sum_dangling.
  - pose proof (closed_links corpus page links Hc Hget) as Hsub.
    destruct (set_choose_L links) as [k Hk].
    { intros ->. by rewrite size_empty in Hsz. }
    assert (k ∈ keys corpus) as Hkin.
    { specialize (Hsub k Hk). by apply elem_of_list_to_set in Hsub. }
    apply list_elem_of_fmap in Hkin as ([k' v] & -> & Hkv).
    apply (Qcsum_pos _ (probability (len corpus) links d k')).
    + apply Forall_forall. intros y Hy.
      apply list_elem_of_fmap in Hy as (kv & -> & _).
      apply probability_nonneg; [done | by apply Qclt_le_weak | done].
    + apply list_elem_of_fmap. by exists (k', v).
    + unfold probability. rewrite decide_False, decide_True by done.
      apply Qcplus_pos_nonneg.
      * unfold Qcdiv. apply Qcmult_pos_pos; [done |].
        by apply Qcinv_pos, Qc_of_nat_pos.
      * apply Qcdiv_nonneg; [qc2q; lra |].
        rewrite <-Z2Qc_inj_0. by apply (proj1 (Z2Qc_inj_lt _ _)).
Qed.

(** With positive damping on a closed graph every draw succeeds, so the
    walk has the requested length and stays inside the graph. *)
Lemma walk_from_total (corpus : graph) d g steps :
  is_dict corpus → closed corpus → 0 < d → d ≤ 1 →
  ∀ i current, current ∈ keys corpus →
    ∃ walk, walk_from corpus d g i steps current = Ok walk
      ∧ length walk = steps ∧ Forall (.∈ keys corpus) walk.
Proof.
  intros Hd Hc Hd0 Hd1. induction steps as [|steps IH]; intros i current Hin.
  - exists []. by repeat split.
  - destruct (get corpus current) as [links|] eqn:Hget.
    2:{ by apply get_None_iff in Hget. }
    cbn [walk_from].
    rewrite (transition_model_eq corpus current links d Hd Hget). rsimpl.
    rewrite (keys_map_build (λ k _, probability (len corpus) links d k)).
    rewrite (vals_map_build (λ k _, probability (len corpus) links d k)).
    destruct (choices_positive g i (keys corpus)
                (map (λ kv, probability (len corpus) links d kv.1) corpus))
      as (next & Hnext & Hnin).
    { unfold keys. by rewrite length_map, length_fmap. }
    { by eapply transition_model_total_positive. }
    rewrite Hnext. rsimpl.
    destruct (IH (S i) next Hnin) as (rest & -> & Hlen & Hall). rsimpl.
    exists (next :: rest). repeat split; [simpl; by f_equal |].
    by constructor.
Qed.

Lemma Qcsum_zero {A} (f : A → Qc) (l : list A) :
  (∀ x, x ∈ l → f x = 0) → Qcsum (map f l) = 0.
Proof.
  induction l as [|x l IH]; intros Hf; cbn [map]; [done |].
  rewrite Qcsum_cons, Hf by left. rewrite IH; [ring |].
  intros y Hy. apply Hf. by right.
Qed.

Lemma indicator_sum (ks : list string) p :
  NoDup ks → p ∈ ks →
  Qcsum (map (λ k, Qc_of_Z (if decide (k = p) then 1 else 0)) ks) = 1.
Proof.
  induction 1 as [|k ks Hk Hnd IH]; intros Hin.
  - by apply elem_of_nil in Hin.
  - cbn [map]. rewrite Qcsum_cons.
    destruct (decide (k = p)) as [->|Hne].
    + rewrite Qcsum_zero; [rewrite Z2Qc_inj_1; ring |].
      intros k' Hk'. rewrite decide_False; [apply Z2Qc_inj_0 |].
      by intros ->.
    + apply elem_of_cons in Hin as [?|Hin]; [done |].
      rewrite IH by done. rewrite Z2Qc_inj_0. ring.
Qed.

(** The visit counts partition the walk. *)
Lemma visit_count_sum (ks : list string) walk :
  NoDup ks → Forall (.∈ ks) walk →
  Qcsum (map (λ k, Qc_of_Z (visit_count walk k)) ks)
  = Qc_of_Z (Z.of_nat (length walk)).
Proof.
  intros Hnd. induction 1 as [|p walk Hp Hall IH].
  - rewrite Qcsum_zero; [symmetry; apply Z2Qc_inj_0 |].
    intros k _. apply Z2Qc_inj_0.
  - rewrite (map_ext _ (λ k, Qc_of_Z (if decide (k = p) then 1 else 0)
                              + Qc_of_Z (visit_count walk k))).
    + rewrite Qcsum_plus, indicator_sum, IH by done.
      cbn [length]. rewrite Qc_of_nat_S. ring.
    + intros k. rewrite <-Z2Qc_inj_add. f_equal.
      unfold visit_count. rewrite filter_cons.
      destruct (decide (p = k)) as [->|Hne].
      * rewrite decide_True by done. cbn [length]. lia.
      * rewrite decide_False by done. lia.
Qed.

Lemma visit_count_nonneg walk p : (0 ≤ visit_count walk p)%Z.
Proof. unfold visit_count. lia. Qed.

Lemma frequencies_nonneg (corpus : graph) walk n :
  (0 < n)%Z → Forall (λ v, 0 ≤ v) (vals (frequencies corpus walk n)).
Proof.
  intros Hn. unfold frequencies.
  rewrite (vals_map_build (λ k _, Qc_of_Z (visit_count walk k) / Qc_of_Z n)).
  apply Forall_forall. intros v Hv.
  apply list_elem_of_fmap in Hv as (kv & -> & _).
  apply Qcdiv_nonneg.
  - rewrite <-Z2Qc_inj_0. apply (proj1 (Z2Qc_inj_le _ _)), visit_count_nonneg.
  - rewrite <-Z2Qc_inj_0. by apply (proj1 (Z2Qc_inj_lt _ _)).
Qed.

Lemma frequencies_sum (corpus : graph) walk n :
  is_dict corpus → Forall (.∈ keys corpus) walk →
  Z.of_nat (length walk) = n → (0 < n)%Z →
  Qcsum (vals (frequencies corpus walk n)) = 1.
Proof.
  intros Hd Hall Hlen Hn. unfold frequencies.
  rewrite (vals_map_build (λ k _, Qc_of_Z (visit_count walk k) / Qc_of_Z n)).
  cbn beta. unfold Qcdiv.
  rewrite (Qcsum_scale_r (λ kv, Qc_of_Z (visit_count walk kv.1))).
  rewrite (map_on_keys (λ k, Qc_of_Z (visit_count walk k))).
  rewrite visit_count_sum, Hlen by done.
  apply Qcmult_inv_r. intros H. apply Qc_of_Z_eq_0 in H. lia.
Qed.


Lemma positive_weights_page (corpus : graph) d page :
  positive_weights corpus d → page ∈ keys corpus →
  ∃ sequence, transition_model corpus page d = Ok sequence
    ∧ 0 < Qcsum (vals sequence).
Proof.
  intros Hpos Hin. apply list_elem_of_fmap in Hin as ([k links] & -> & Hkv).
  unfold positive_weights in Hpos. rewrite Forall_forall in Hpos.
  specialize (Hpos _ Hkv). cbn [fst] in *.
  destruct (transition_model corpus k d) as [sequence|e]; [| done].
  by exists sequence.
Qed.

(** When every distribution has a positive total weight every draw
    succeeds, so the walk has the requested length and stays inside the
    graph. *)
Lemma walk_from_positive (corpus : graph) d g steps :
  is_dict corpus → positive_weights corpus d →
  ∀ i current, current ∈ keys corpus →
    ∃ walk, walk_from corpus d g i steps current = Ok walk
      ∧ length walk = steps ∧ Forall (.∈ keys corpus) walk.
Proof.
  intros Hd Hpos. induction steps as [|steps IH]; intros i current Hin.
  - exists []. by repeat split.
  - destruct (positive_weights_page corpus d current Hpos Hin)
      as (sequence & Htm & Htotal).
    cbn [walk_from]. rewrite Htm. rsimpl.
    destruct (choices_positive g i (keys sequence) (vals sequence))
      as (next & Hnext & Hnin).
    { unfold keys, vals. by rewrite !length_fmap. }
    { done. }
    rewrite Hnext. rsimpl.
    rewrite (transition_model_keys corpus current d sequence) in Hnin by done.
    destruct (IH (S i) next Hnin) as (rest & -> & Hlen & Hall). rsimpl.
    exists (next :: rest). repeat split; [simpl; by f_equal |].
    by constructor.
Qed.

(** In exact arithmetic a positive damping on a closed graph gives every
    distribution a positive total weight. *)
Lemma positive_weights_closed (corpus : graph) d :
  is_dict corpus → closed corpus → 0 < d → d ≤ 1 →
  positive_weights corpus d.
Proof.
  intros Hd Hc Hd0 Hd1. unfold positive_weights. apply Forall_forall.
  intros [k links] Hin. cbn [fst].
  pose proof (get_elem_Some corpus k links Hd Hin) as Hget.
  rewrite (transition_model_eq corpus k links d Hd Hget). cbn [positive_total].
  rewrite (vals_map_build (λ k _, probability (len corpus) links d k)).
  by eapply transition_model_total_positive.
Qed.

Lemma Qcsum_of_Z {A} (f : A → Z) (l : list A) :
  Qcsum (map (λ x, Qc_of_Z (f x)) l) = Qc_of_Z (Zsum (map f l)).
Proof.
  induction l as [|x l IH]; cbn [map].
  - symmetry. apply Z2Qc_inj_0.
  - rewrite Qcsum_cons, IH. unfold Zsum. cbn [foldr].
    by rewrite Z2Qc_inj_add.
Qed.

(** The visit counts of a walk inside the graph add up to its length. *)
Lemma visit_count_partition (ks : list string) walk :
  NoDup ks → Forall (.∈ ks) walk →
  Zsum (map (visit_count walk) ks) = Z.of_nat (length walk).
Proof.
  intros Hnd Hall. apply Z2Qc_inj.
  rewrite <-(Qcsum_of_Z (visit_count walk)). by apply visit_count_sum.
Qed.



(** C6, counterexample: with n = -1 the sampler does not fail; it
    returns the rank vector [{a.html: -1}]. *)
Lemma sample_pagerank_negative_count_counterexample :
  sample_pagerank single_page (Q2Qc (1 # 2)) (-1) fixed_rng
  = Ok [("a.html", Q2Qc (-1 # 1))].
Proof. by_compute. Qed.

(** C6, amended. On a non-empty graph, [sample_pagerank] with n = 0
    visits the starting page only and then fails with
    [ZeroDivisionError] when the counts are divided by n; with n < 0 it
    does not fail and returns 1/n for the starting page and 0 for every
    other page. *)
Theorem sample_pagerank_nonpositive_count (corpus : graph) d n g :
  is_dict corpus → corpus ≠ [] → (n < 1)%Z →
  ∃ start, choice g (keys corpus) = Ok start
    ∧ sample_pagerank corpus d n g
      = if decide (n = 0%Z) then Raise ZeroDivisionError
        else Ok (map (λ kv, (kv.1, if decide (kv.1 = start)
                                   then 1 / Qc_of_Z n else 0)) corpus).
Proof.
  intros Hd Hne Hn.
  destruct (choice_nonempty g (keys corpus)) as (start & Hstart & Hin).
  { by destruct corpus. }
  exists start. split; [done |].
  rewrite (sample_pagerank_walk corpus d n g [start]); [| done | done |].
  - case_decide; [done |]. f_equal. unfold frequencies.
    apply map_ext. intros [k v]. cbn [fst]. f_equal.
    unfold visit_count. rewrite filter_cons, filter_nil.
    destruct (decide (k = start)) as [->|Hk].
    + rewrite decide_True by done. cbn [length].
      change (Z.of_nat 1) with 1%Z. by rewrite Z2Qc_inj_1.
    + rewrite decide_False by done. cbn [length].
      change (Z.of_nat 0) with 0%Z. rewrite Z2Qc_inj_0.
      unfold Qcdiv. ring.
  - unfold random_walk. rewrite Hstart. rsimpl.
    replace (Z.to_nat (n - 1)) with 0%nat by lia. done.
Qed.

Lemma sample_pagerank_nonpositive_count_witness :
  ∃ start, choice fixed_rng (keys three_pages) = Ok start
    ∧ sample_pagerank three_pages DAMPING 0 fixed_rng
      = if decide (0 = 0)%Z then Raise ZeroDivisionError
        else Ok (map (λ kv, (kv.1, if decide (kv.1 = start)
                                   then 1 / Qc_of_Z 0 else 0)) three_pages).
Proof.
  apply (sample_pagerank_nonpositive_count three_pages DAMPING 0 fixed_rng).
  - unfold is_dict. by_compute.
  - done.
  - lia.
Defined.

(** ** The store monad *)

Lemma bind_Ok {A B} (m : M A) (f : A → M B) s a s' :
  m s = (Ok a, s') → (m ≫= f) s = f a s'.
Proof. intros H. unfold mbind, M_bind. by rewrite H. Qed.

Lemma bind_Raise {A B} (m : M A) (f : A → M B) s e s' :
  m s = (Raise e, s') → (m ≫= f) s = (Raise e, s').
Proof. intros H. unfold mbind, M_bind. by rewrite H. Qed.

(** Runs the first command of a sequence on the current store. *)
Ltac mstep := erewrite bind_Ok by reflexivity; cbn [heap temp].

Lemma foldS_pure {A B} (f : A → B → M A) (g : A → B → A) (l : list B) a s :
  (∀ a x, x ∈ l → f a x s = (Ok (g a x), s)) →
  foldS f a l s = (Ok (fold_left g l a), s).
Proof.
  revert a. induction l as [|x l IH]; intros a Hf; cbn [foldS fold_left].
  - done.
  - rewrite (bind_Ok _ _ _ _ _ (Hf a x ltac:(left))).
    apply IH. intros a' y Hy. apply Hf. by right.
Qed.

Lemma getitem_rank_of (rank : dict Qc) k :
  k ∈ keys rank → getitem rank k = Ok (rank_of rank k).
Proof.
  intros Hk. unfold getitem, rank_of.
  destruct (get rank k) eqn:E; [done | by apply get_None_iff in E].
Qed.

Lemma fold_left_Qcsum {A} (f : A → Qc) (l : list A) (a : Qc) :
  fold_left (λ acc x, acc + f x) l a = a + Qcsum (map f l).
Proof.
  revert a. induction l as [|x l IH]; intros a; cbn [fold_left map].
  - unfold Qcsum. simpl. ring.
  - rewrite IH, Qcsum_cons. ring.
Qed.

(** The inner loop of [iterate] computes the sum of the contributions
    and leaves the store alone. *)
Lemma summation_loop (corpus : graph) (values : loc) (k : string)
    (rank : dict Qc) s :
  default [] (heap s !! values) = rank → keys rank = keys corpus →
  foldS (λ summation '(key, val),
           if decide (size val = 0%nat) then
             d ← load values;
             x ← lift (getitem d key);
             q ← lift (truediv x (Qc_of_Z (len corpus)));
             mret (summation + q)
           else if decide (k ∈ val) then
             d ← load values;
             x ← lift (getitem d key);
             q ← lift (truediv x (Qc_of_Z (Z.of_nat (size val))));
             mret (summation + q)
           else mret summation)
        0 (items corpus) s
  = (Ok (Qcsum (map (contribution (len corpus) rank k) corpus)), s).
Proof.
  intros Hrank Hkeys.
  rewrite (foldS_pure _ (λ acc il, acc + contribution (len corpus) rank k il)).
  - unfold items. by rewrite fold_left_Qcsum, Qcplus_0_l.
  - intros acc [key val] Hin. unfold contribution. cbn [fst snd].
    assert (key ∈ keys rank) as Hkey.
    { rewrite Hkeys. apply list_elem_of_fmap. by exists (key, val). }
    assert (Qc_of_Z (len corpus) ≠ 0) as HN by eauto using len_nonzero.
    repeat case_decide.
    + unfold mbind, M_bind, load, lift, mret, M_ret. rewrite Hrank.
      by rewrite getitem_rank_of, truediv_Ok.
    + unfold mbind, M_bind, load, lift, mret, M_ret. rewrite Hrank.
      rewrite getitem_rank_of, truediv_Ok; [done | | done].
      intros H'. apply Qc_of_Z_eq_0 in H'. lia.
    + unfold mret, M_ret. by rewrite Qcplus_0_r.
Qed.

Lemma corpus_len_nonzero (corpus : graph) : corpus ≠ [] → Qc_of_Z (len corpus) ≠ 0.
Proof. destruct corpus as [|kv c]; [done |]. intros _. apply (len_nonzero _ kv). left. Qed.

(** The outer loop of [iterate] fills the dict bound to [temp] with the
    updated ranks, in the order of [values]. *)
Lemma update_loop (corpus : graph) (values : loc) (rank : dict Qc) h
    (l : dict Qc) :
  corpus ≠ [] → h !! values = Some rank → keys rank = keys corpus →
  ∀ acc, NoDup (keys acc ++ keys l) →
  forS (items l) (λ '(k, v),
        summation ←
          foldS (λ summation '(key, val),
                   if decide (size val = 0%nat) then
                     d ← load values;
                     x ← lift (getitem d key);
                     q ← lift (truediv x (Qc_of_Z (len corpus)));
                     mret (summation + q)
                   else if decide (k ∈ val) then
                     d ← load values;
                     x ← lift (getitem d key);
                     q ← lift (truediv x (Qc_of_Z (Z.of_nat (size val))));
                     mret (summation + q)
                   else mret summation)
                0 (items corpus);
        c ← lift (truediv (1 - DAMPING) (Qc_of_Z (len corpus)));
        t ← load_temp;
        store_item t k (c + DAMPING * summation))
    (State (h ++ [acc]) (Some (length h)))
  = (Ok (),
     State (h ++ [acc ++ map (λ kv, (kv.1, update DAMPING corpus rank kv.1)) l])
           (Some (length h))).
Proof.
  intros Hne Hval Hkeys. unfold forS, items.
  induction l as [|[k v] l IH]; intros acc Hnd; cbn [foldS map].
  - by rewrite app_nil_r.
  - assert (k ∉ keys acc) as Hk.
    { apply NoDup_app in Hnd as (_ & Hd & _). intros Hin.
      apply (Hd _ Hin). left. }
    lazymatch goal with
    | |- mbind ?F ?m ?s = _ =>
        assert (m s = (Ok (), State (h ++ [acc ++ [(k, update DAMPING corpus rank k)]])
                                    (Some (length h)))) as Hbody
    end.
    { unfold mbind at 1, M_bind at 1.
      rewrite (summation_loop corpus values k rank).
      2:{ cbn [heap]. rewrite lookup_app_l by (by eapply lookup_lt_Some).
          by rewrite Hval. }
      2:{ done. }
      rewrite truediv_Ok by (by apply corpus_len_nonzero).
      unfold mbind, M_bind, lift, load_temp, store_item. cbn [temp heap].
      replace (length h) with (length h + 0)%nat at 1 by lia.
      rewrite alter_app_r. cbn [alter list_alter].
      by rewrite setitem_fresh by done. }
    rewrite (bind_Ok _ _ _ _ _ Hbody), IH.
    + by rewrite <-app_assoc.
    + unfold keys in *. rewrite fmap_app, <-app_assoc. exact Hnd.
Qed.

Lemma diff_loop_from (prev current : list Qc) s :
  ∀ l1 l2 done1 done2 acc,
    prev = done1 ++ l1 → current = done2 ++ l2 →
    length done1 = length done2 → length l1 = length l2 →
    foldS (λ diff i,
             a ← lift (index prev i);
             b ← lift (index current i);
             mret (diff ++ [Qcabs (a - b)]))
          acc (seq (length done1) (length l1)) s
    = (Ok (acc ++ zip_with (λ a b, Qcabs (a - b)) l1 l2), s).
Proof.
  induction l1 as [|x l1 IH]; intros l2 done1 done2 acc Hp Hc Hd Hl.
  - destruct l2; [| done]. cbn [length seq foldS zip_with].
    by rewrite app_nil_r.
  - destruct l2 as [|y l2]; [done |]. cbn [length seq foldS zip_with].
    lazymatch goal with
    | |- mbind ?F ?m ?s = _ =>
        assert (m s = (Ok (acc ++ [Qcabs (x - y)]), s)) as Hbody
    end.
    { unfold mbind, M_bind, lift, mret, M_ret, index.
      rewrite Hp, Hc, list_lookup_middle by done.
      rewrite Hd, list_lookup_middle by done. done. }
    rewrite (bind_Ok _ _ _ _ _ Hbody).
    replace (S (length done1)) with (length (done1 ++ [x]))
      by (rewrite length_app; simpl; lia).
    rewrite (IH l2 (done1 ++ [x]) (done2 ++ [y])).
    + by rewrite <-app_assoc.
    + by rewrite <-app_assoc.
    + by rewrite <-app_assoc.
    + rewrite !length_app. simpl. lia.
    + simpl in Hl. lia.
Qed.

Lemma diff_loop (prev current : list Qc) s :
  length prev = length current →
  foldS (λ diff i,
           a ← lift (index prev i);
           b ← lift (index current i);
           mret (diff ++ [Qcabs (a - b)]))
        [] (seq 0 (length prev)) s
  = (Ok (zip_with (λ a b, Qcabs (a - b)) prev current), s).
Proof.
  intros Hl. by apply (diff_loop_from prev current s prev current [] [] []).
Qed.

Lemma rank_of_step d (corpus : graph) (rank : dict Qc) k :
  k ∈ keys rank →
  rank_of (pagerank_step d corpus rank) k = update d corpus rank k.
Proof.
  intros Hk. unfold rank_of, pagerank_step.
  rewrite (get_map_build (λ k _, update d corpus rank k)).
  destruct (get rank k) eqn:E; [done | by apply get_None_iff in E].
Qed.

Lemma keys_step d (corpus : graph) (rank : dict Qc) :
  keys (pagerank_step d corpus rank) = keys rank.
Proof. apply (keys_map_build (λ k _, update d corpus rank k)). Qed.

Lemma zip_diff (rank : dict Qc) (u : string → Qc) :
  zip_with (λ a b, Qcabs (a - b)) (vals rank)
           (vals (map (λ kv, (kv.1, u kv.1)) rank))
  = map (λ kv, Qcabs (kv.2 - u kv.1)) rank.
Proof. induction rank as [|[k v] r IH]; simpl; [done | by f_equal]. Qed.

Lemma diff_delta d (corpus : graph) (rank : dict Qc) :
  zip_with (λ a b, Qcabs (a - b)) (vals rank)
           (vals (pagerank_step d corpus rank))
  = map (λ kv, Qcabs (kv.2 - rank_of (pagerank_step d corpus rank) kv.1)) rank.
Proof.
  unfold pagerank_step at 1. rewrite zip_diff.
  apply list_eq. intros i. rewrite !list_lookup_fmap.
  destruct (rank !! i) as [[k v]|] eqn:E; [| done]. cbn [fmap option_fmap option_map fst snd].
  rewrite rank_of_step; [done |].
  apply list_elem_of_fmap. exists (k, v). split; [done |].
  by eapply list_elem_of_lookup_2.
Qed.

Lemma Qcmax_l (x y : Qc) : ¬ x < y → Qcmax x y = x.
Proof. intros. unfold Qcmax. by rewrite decide_False. Qed.

Lemma Qcmax_r (x y : Qc) : x < y → Qcmax x y = y.
Proof. intros. unfold Qcmax. by rewrite decide_True. Qed.

Lemma Qcmax_assoc (x y z : Qc) : Qcmax (Qcmax x y) z = Qcmax x (Qcmax y z).
Proof.
  unfold Qcmax. repeat case_decide; try done; qc2q; lra.
Qed.

Lemma Qcmax_ge_l (x y : Qc) : x ≤ Qcmax x y.
Proof. unfold Qcmax. case_decide; qc2q; lra. Qed.

Lemma Qcmax_ge_r (x y : Qc) : y ≤ Qcmax x y.
Proof. unfold Qcmax. case_decide; qc2q; lra. Qed.

Lemma fold_left_Qcmax (l : list Qc) (a : Qc) :
  0 ≤ a → fold_left Qcmax l a = Qcmax a (foldr Qcmax 0 l).
Proof.
  revert a. induction l as [|y l IH]; intros a Ha; cbn [fold_left foldr].
  - rewrite Qcmax_l; [done |]. by apply Qcle_not_lt.
  - rewrite IH, Qcmax_assoc; [done |].
    eapply Qcle_trans; [exact Ha | apply Qcmax_ge_l].
Qed.

Lemma pymax_foldr (l : list Qc) :
  l ≠ [] → Forall (λ x, 0 ≤ x) l → pymax l = Ok (foldr Qcmax 0 l).
Proof.
  destruct l as [|x l]; [done |]. intros _ Hall. unfold pymax.
  apply Forall_cons in Hall as [Hx _].
  change (λ m y : Qc, if decide (m < y) then y else m) with Qcmax.
  by rewrite fold_left_Qcmax.
Qed.

Lemma delta_pymax d (corpus : graph) (rank : dict Qc) :
  rank ≠ [] →
  pymax (zip_with (λ a b, Qcabs (a - b)) (vals rank)
                  (vals (pagerank_step d corpus rank)))
  = Ok (delta rank (pagerank_step d corpus rank)).
Proof.
  intros Hne. rewrite diff_delta. unfold delta. apply pymax_foldr.
  - by destruct rank.
  - apply Forall_forall. intros x Hx.
    apply list_elem_of_fmap in Hx as (kv & -> & _). apply Qcabs_nonneg.
Qed.

(** [iterate] refines [iterate_pure]: it allocates at the end of the
    heap, never touches the dicts that were there, and returns the dict
    the global [temp] is bound to. *)
Lemma iterate_refines (corpus : graph) :
  corpus ≠ [] →
  ∀ depth values s rank,
    heap s !! values = Some rank → keys rank = keys corpus →
    NoDup (keys rank) →
    ∃ s', heap s `prefix_of` heap s' ∧
      match iterate_pure depth corpus rank with
      | Ok r => ∃ l, iterate depth corpus values s = (Ok l, s')
                     ∧ temp s' = Some l ∧ heap s' !! l = Some r
                     ∧ (length (heap s) ≤ l)%nat
      | Raise e => iterate depth corpus values s = (Raise e, s')
      end.
Proof.
  intros Hne. induction depth as [|depth IH]; intros values s rank Hval Hkeys Hnd.
  - exists s. split; [done |]. done.
  - destruct s as [h tmp]. cbn [heap] in Hval.
    assert (rank ≠ []) as Hrne.
    { intros ->. destruct corpus; done. }
    pose (rank' := pagerank_step DAMPING corpus rank).
    pose (s1 := State (h ++ [rank']) (Some (length h))).
    assert (values < length h)%nat as Hlt by (by eapply lookup_lt_Some).
    assert (∀ X, (h ++ [X]) !! values = Some rank) as Hval'.
    { intros X. by rewrite lookup_app_l. }
    assert (∀ X : dict Qc, (h ++ [X]) !! length h = Some X) as Hnew.
    { intros X. by rewrite list_lookup_middle. }
    (* the part of the body before the recursive call *)
    cbn [iterate_pure iterate]. fold rank'.
    mstep. mstep. mstep. rewrite Hval'. cbn [default from_option id].
    erewrite bind_Ok
      by (apply (update_loop corpus values rank h rank Hne Hval Hkeys []);
          done).
    cbn [app]. fold (pagerank_step DAMPING corpus rank). fold rank'.
    mstep. rewrite Hval'. cbn [default from_option id].
    mstep. mstep. rewrite Hnew. cbn [default from_option id].
    erewrite bind_Ok.
    2:{ apply diff_loop. unfold rank', vals, pagerank_step.
        by rewrite !length_fmap. }
    cbn beta. unfold rank'. rewrite delta_pymax by done. fold rank'.
    mstep. fold s1. fold threshold.
    destruct (decide (threshold < delta rank rank')) as [Hgt|Hle].
    + (* another round *)
      destruct (IH (length h) s1 rank') as (s' & Hpre & Hres).
      { unfold s1. cbn [heap]. apply Hnew. }
      { unfold rank'. by rewrite keys_step. }
      { unfold rank'. by rewrite keys_step. }
      exists s'. split.
      { etrans; [| exact Hpre]. unfold s1. cbn [heap]. by apply prefix_app_r. }
      destruct (iterate_pure depth corpus rank') as [r|e].
      * destruct Hres as (l & Hrun & Htmp & Hl & Hfresh).
        exists l.
        erewrite bind_Ok.
        2:{ erewrite bind_Ok by reflexivity. erewrite bind_Ok by exact Hrun.
            reflexivity. }
        unfold load_temp. rewrite Htmp.
        repeat split; try done.
        unfold s1 in Hfresh. cbn [heap] in Hfresh. rewrite length_app in Hfresh.
        lia.
      * erewrite bind_Raise; [reflexivity |].
        erewrite bind_Ok by reflexivity. erewrite bind_Raise by exact Hres.
        reflexivity.
    + exists s1. split.
      { unfold s1. cbn [heap]. by apply prefix_app_r. }
      exists (length h). erewrite bind_Ok by reflexivity.
      unfold s1. cbn [temp heap]. repeat split; done.
Qed.

(** ** More on sums *)

Lemma Qcle_eq (x y : Qc) : x = y → x ≤ y.
Proof. intros ->. apply Qcle_refl. Qed.


Lemma Qcsum_ext_in {A} (f g : A → Qc) (l : list A) :
  (∀ x, x ∈ l → f x = g x) → Qcsum (map f l) = Qcsum (map g l).
Proof.
  induction l as [|x l IH]; intros H; cbn [map]; [done |].
  rewrite !Qcsum_cons, H by left. f_equal. apply IH.
  intros y Hy. apply H. by right.
Qed.

Lemma Qcsum_le {A} (f g : A → Qc) (l : list A) :
  (∀ x, x ∈ l → f x ≤ g x) → Qcsum (map f l) ≤ Qcsum (map g l).
Proof.
  induction l as [|x l IH]; intros H; cbn [map]; [done |].
  rewrite !Qcsum_cons. apply Qcplus_le_compat.
  - apply H. left.
  - apply IH. intros y Hy. apply H. by right.
Qed.

Lemma Qcsum_scale_l {A} (f : A → Qc) (c : Qc) (l : list A) :
  Qcsum (map (λ x, c * f x) l) = c * Qcsum (map f l).
Proof.
  induction l as [|x l IH]; cbn [map].
  - unfold Qcsum. simpl. ring.
  - rewrite !Qcsum_cons, IH. ring.
Qed.

Lemma Qcsum_exchange {A B} (f : A → B → Qc) (la : list A) (lb : list B) :
  Qcsum (map (λ a, Qcsum (map (λ b, f a b) lb)) la)
  = Qcsum (map (λ b, Qcsum (map (λ a, f a b) la)) lb).
Proof.
  induction la as [|a la IH]; cbn [map].
  - symmetry. by apply Qcsum_zero.
  - rewrite Qcsum_cons, IH.
    rewrite <-(Qcsum_plus (λ b, f a b) (λ b, Qcsum (map (λ a, f a b) la))).
    done.
Qed.

Lemma Qcabs_Qcsum {A} (f : A → Qc) (l : list A) :
  Qcabs (Qcsum (map f l)) ≤ Qcsum (map (λ x, Qcabs (f x)) l).
Proof.
  induction l as [|x l IH]; cbn [map].
  - unfold Qcsum. cbn [foldr]. rewrite Qcabs_pos; done.
  - rewrite !Qcsum_cons.
    eapply Qcle_trans; [apply Qcabs_triangle |].
    by apply Qcplus_le_compat.
Qed.

Lemma Qcmax_le_sum (l : list Qc) :
  Forall (λ x, 0 ≤ x) l → foldr Qcmax 0 l ≤ Qcsum l.
Proof.
  induction 1 as [|x l Hx Hl IH]; cbn [foldr]; [done |].
  rewrite Qcsum_cons. pose proof (Qcsum_nonneg l Hl) as Hs.
  cbn beta in Hx.
  destruct (decide (x < foldr Qcmax 0 l));
    [rewrite Qcmax_r by done | rewrite Qcmax_l by done]; qc2q; lra.
Qed.

(** ** Convergence of the recurrence *)

Section convergence.
Variable corpus : graph.
Hypothesis Hdict : is_dict corpus.
Hypothesis Hne : corpus ≠ [].

Lemma len_pos : 0 < Qc_of_Z (len corpus).
Proof using Hne.
  clear Hdict.
  rewrite <-Z2Qc_inj_0. apply (proj1 (Z2Qc_inj_lt _ _)).
  unfold len. destruct corpus; [done | simpl; lia].
Qed.

Lemma contribution_weight (r : dict Qc) p il :
  contribution (len corpus) r p il
  = rank_of r il.1 * weight (len corpus) il.2 p.
Proof.
  unfold contribution, weight. repeat case_decide; unfold Qcdiv; ring.
Qed.

Lemma weight_nonneg links p : 0 ≤ weight (len corpus) links p.
Proof.
  unfold weight. repeat case_decide; [| | done].
  - apply Qclt_le_weak, Qcinv_pos, len_pos.
  - by apply Qclt_le_weak, Qcinv_pos, Qc_of_nat_pos.
Qed.

Lemma length_filter_links_le (links : gset string) :
  (length (filter (.∈ links) (keys corpus)) ≤ size links)%nat.
Proof.
  unfold size, set_size. simpl. apply submseteq_length, NoDup_submseteq.
  - by apply NoDup_filter.
  - intros x. rewrite list_elem_of_filter, elem_of_elements. by intros [? _].
Qed.

(** What a page passes on, summed over the receiving pages, is at most
    its own rank. *)
Lemma weight_sum links :
  Qcsum (map (weight (len corpus) links) (keys corpus)) ≤ 1.
Proof.
  pose proof len_pos as HN.
  assert (Qc_of_Z (len corpus) ≠ 0) as HN'.
  { intros E. rewrite E in HN. by apply Qclt_not_eq in HN. }
  unfold weight. destruct (decide (size links = 0%nat)) as [Hsz|Hsz].
  - rewrite Qcsum_const. unfold keys. rewrite length_fmap. fold (len corpus).
    rewrite Qcmult_inv_r by done. done.
  - rewrite (Qcsum_ite (.∈ links)).
    pose proof (length_filter_links_le links) as Hle.
    pose proof (Qc_of_nat_pos (size links) Hsz) as HL.
    assert (Qc_of_Z (Z.of_nat (length (filter (.∈ links) (keys corpus))))
            ≤ Qc_of_Z (Z.of_nat (size links))) as Hle'.
    { apply (proj1 (Z2Qc_inj_le _ _)). lia. }
    rewrite Qcmult_0_r, Qcplus_0_r.
    apply (Qcmult_le_mono_nonneg_r _ _ (/ Qc_of_Z (Z.of_nat (size links))))
      in Hle'.
    + rewrite Qcmult_inv_r in Hle'; [done |].
      intros E. rewrite E in HL. by apply Qclt_not_eq in HL.
    + by apply Qclt_le_weak, Qcinv_pos.
Qed.

Lemma update_diff d (r r' : dict Qc) p :
  update d corpus r p - update d corpus r' p
  = d * Qcsum (map (λ il, (rank_of r il.1 - rank_of r' il.1)
                          * weight (len corpus) il.2 p) corpus).
Proof.
  unfold update.
  rewrite (Qcsum_ext_in (contribution (len corpus) r p)
             (λ il, rank_of r' il.1 * weight (len corpus) il.2 p
                    + (rank_of r il.1 - rank_of r' il.1)
                      * weight (len corpus) il.2 p)).
  2:{ intros il _. rewrite contribution_weight. ring. }
  rewrite (Qcsum_ext_in (contribution (len corpus) r' p)
             (λ il, rank_of r' il.1 * weight (len corpus) il.2 p)).
  2:{ intros il _. apply contribution_weight. }
  rewrite Qcsum_plus. ring.
Qed.

Lemma update_diff_abs d (r r' : dict Qc) p :
  0 ≤ d →
  Qcabs (update d corpus r p - update d corpus r' p)
  ≤ d * Qcsum (map (λ il, Qcabs (rank_of r il.1 - rank_of r' il.1)
                          * weight (len corpus) il.2 p) corpus).
Proof.
  intros Hd. rewrite update_diff, Qcabs_Qcmult, (Qcabs_pos d) by done.
  apply Qcmult_le_mono_nonneg_l; [done |].
  eapply Qcle_trans; [apply Qcabs_Qcsum |].
  apply Qcsum_le. intros il _.
  rewrite Qcabs_Qcmult, (Qcabs_pos (weight _ _ _)) by apply weight_nonneg.
  done.
Qed.

(** One step of the recurrence brings two rank vectors closer by the
    damping factor. *)
Lemma contraction d (r r' : dict Qc) :
  0 ≤ d → keys r = keys corpus → keys r' = keys corpus →
  dist corpus (pagerank_step d corpus r) (pagerank_step d corpus r')
  ≤ d * dist corpus r r'.
Proof.
  intros Hd Hr Hr'. unfold dist.
  eapply Qcle_trans.
  { apply (Qcsum_le _ (λ p, d * Qcsum (map (λ il,
             Qcabs (rank_of r il.1 - rank_of r' il.1)
             * weight (len corpus) il.2 p) corpus))).
    intros p Hp. rewrite !rank_of_step by (by rewrite ?Hr, ?Hr').
    by apply update_diff_abs. }
  rewrite Qcsum_scale_l. apply Qcmult_le_mono_nonneg_l; [done |].
  rewrite (Qcsum_exchange (λ p il, Qcabs (rank_of r il.1 - rank_of r' il.1)
                                   * weight (len corpus) il.2 p)).
  rewrite <-(map_on_keys (λ k, Qcabs (rank_of r k - rank_of r' k)) corpus).
  apply Qcsum_le. intros il _.
  rewrite Qcsum_scale_l.
  rewrite <-(Qcmult_1_r (Qcabs (rank_of r il.1 - rank_of r' il.1))) at 2.
  apply Qcmult_le_mono_nonneg_l; [apply Qcabs_nonneg | apply weight_sum].
Qed.

Lemma rank_of_elem (r : dict Qc) k v :
  is_dict r → (k, v) ∈ r → rank_of r k = v.
Proof. intros Hd Hin. unfold rank_of. by rewrite (get_elem_Some r k v). Qed.

Lemma rank_of_build {V} (g : string → Qc) (l : dict V) k :
  k ∈ keys l → rank_of (map (λ kv, (kv.1, g kv.1)) l) k = g k.
Proof.
  intros Hk. unfold rank_of. rewrite (get_map_build (λ k _, g k)).
  destruct (get l k) eqn:E; [done | by apply get_None_iff in E].
Qed.

Lemma keys_iterates d j : keys (iterates d corpus j) = keys corpus.
Proof.
  induction j as [|j IH]; cbn [iterates].
  - apply (keys_map_build (λ _ _, 1 / Qc_of_Z (len corpus))).
  - by rewrite keys_step.
Qed.

Lemma dist_triangle (a b c : dict Qc) :
  dist corpus a c ≤ dist corpus a b + dist corpus b c.
Proof.
  unfold dist. rewrite <-Qcsum_plus. apply Qcsum_le. intros k _.
  replace (rank_of a k - rank_of c k)
    with ((rank_of a k - rank_of b k) + (rank_of b k - rank_of c k)) by ring.
  apply Qcabs_triangle.
Qed.

Lemma dist_const (a b : dict Qc) (c : Qc) :
  (∀ k, k ∈ keys corpus → Qcabs (rank_of a k - rank_of b k) = c) →
  dist corpus a b = Qc_of_Z (len corpus) * c.
Proof.
  intros H. unfold dist. rewrite (Qcsum_ext_in _ (λ _, c)) by done.
  rewrite Qcsum_const. unfold keys. by rewrite length_fmap.
Qed.

Lemma keys_zero_rank : keys (zero_rank corpus) = keys corpus.
Proof. apply (keys_map_build (λ _ _, 0)). Qed.

(** The first step moves the uniform vector by at most [2 * damping]. *)
Lemma first_step_bound d :
  0 ≤ d →
  dist corpus (iterates d corpus 0) (iterates d corpus 1) ≤ 2 * d.
Proof.
  intros Hd. pose proof len_pos as HN.
  assert (Qc_of_Z (len corpus) ≠ 0) as HN'.
  { intros E. rewrite E in HN. by apply Qclt_not_eq in HN. }
  cbn [iterates].
  eapply Qcle_trans;
    [apply (dist_triangle _ (pagerank_step d corpus (zero_rank corpus))) |].
  replace (2 * d) with (d + d * 1) by ring.
  apply Qcplus_le_compat.
  - rewrite (dist_const _ _ (d / Qc_of_Z (len corpus))).
    + apply Qcle_eq. field. done.
    + intros k Hk. unfold uniform.
      rewrite (rank_of_build (λ _, 1 / Qc_of_Z (len corpus))) by done.
      rewrite rank_of_step by (by rewrite keys_zero_rank).
      unfold update.
      rewrite (Qcsum_zero (contribution (len corpus) (zero_rank corpus) k)).
      2:{ intros il Hil. rewrite contribution_weight. unfold zero_rank.
          rewrite (rank_of_build (λ _, 0)); [ring |].
          apply list_elem_of_fmap. by exists il. }
      replace (1 / Qc_of_Z (len corpus)
               - ((1 - d) / Qc_of_Z (len corpus) + d * 0))
        with (d / Qc_of_Z (len corpus)) by (field; done).
      apply Qcabs_pos. by apply Qcdiv_nonneg.
  - eapply Qcle_trans.
    { apply contraction; [done | apply keys_zero_rank |].
      apply (keys_map_build (λ _ _, 1 / Qc_of_Z (len corpus))). }
    apply Qcmult_le_mono_nonneg_l; [done |].
    rewrite (dist_const _ _ (1 / Qc_of_Z (len corpus))).
    + apply Qcle_eq. field. done.
    + intros k Hk. unfold uniform, zero_rank.
      rewrite (rank_of_build (λ _, 1 / Qc_of_Z (len corpus))) by done.
      rewrite (rank_of_build (λ _, 0)) by done.
      rewrite Qcabs_Qcminus.
      replace (1 / Qc_of_Z (len corpus) - 0) with (1 / Qc_of_Z (len corpus))
        by ring.
      apply Qcabs_pos. by apply Qcdiv_nonneg.
Qed.

Lemma step_bound d j :
  0 ≤ d →
  dist corpus (iterates d corpus j) (iterates d corpus (S j))
  ≤ d ^ j * (2 * d).
Proof.
  intros Hd. induction j as [|j IH].
  - rewrite Qcmult_1_l. by apply first_step_bound.
  - change (iterates d corpus (S (S j)))
      with (pagerank_step d corpus (iterates d corpus (S j))).
    change (iterates d corpus (S j))
      with (pagerank_step d corpus (iterates d corpus j)) at 1.
    eapply Qcle_trans.
    { apply contraction; [done | apply keys_iterates..]. }
    cbn [Qcpower]. rewrite <-Qcmult_assoc.
    by apply Qcmult_le_mono_nonneg_l.
Qed.

Lemma is_dict_iterates d j : is_dict (iterates d corpus j).
Proof. unfold is_dict. by rewrite keys_iterates. Qed.

Lemma delta_le_dist (r r' : dict Qc) :
  is_dict r → keys r = keys corpus → delta r r' ≤ dist corpus r r'.
Proof.
  intros Hd Hk. unfold delta, dist.
  eapply Qcle_trans.
  { apply Qcmax_le_sum. apply Forall_forall. intros x Hx.
    apply list_elem_of_fmap in Hx as (kv & -> & _). apply Qcabs_nonneg. }
  rewrite <-Hk, <-(map_on_keys (λ k, Qcabs (rank_of r k - rank_of r' k)) r).
  apply Qcle_eq. apply Qcsum_ext_in. intros [k v] Hin. cbn [fst snd].
  by rewrite (rank_of_elem r k v).
Qed.

(** After 46 steps the change is within the threshold. *)
Lemma delta_converged :
  delta (iterates DAMPING corpus 46) (iterates DAMPING corpus 47) ≤ threshold.
Proof.
  eapply Qcle_trans;
    [apply delta_le_dist; [apply is_dict_iterates | apply keys_iterates] |].
  eapply Qcle_trans; [apply step_bound; by_compute |]. by_compute.
Qed.
End convergence.

(** ** [iterate_pagerank] *)

Lemma least_index (P : nat → Prop) `{∀ n, Decision (P n)} (n : nat) :
  P n → ∃ m, (m ≤ n)%nat ∧ P m ∧ ∀ i, (i < m)%nat → ¬ P i.
Proof.
  induction n as [n IH] using lt_wf_ind. intros Hn.
  destruct (decide (Exists P (seq 0 n))) as [Hsome|Hnone].
  - apply Exists_exists in Hsome as (i & Hi & HP).
    apply elem_of_seq in Hi.
    destruct (IH i ltac:(lia) HP) as (m & Hm & HPm & Hleast).
    exists m. split; [lia | done].
  - exists n. split; [lia |]. split; [done |].
    intros i Hi HP. apply Hnone, Exists_exists. exists i.
    split; [apply elem_of_seq; lia | done].
Qed.

Lemma iterate_pure_run (corpus : graph) (m : nat) :
  ∀ depth j,
    (∀ i, (i < m)%nat →
       threshold < delta (iterates DAMPING corpus (j + i))
                         (iterates DAMPING corpus (S (j + i)))) →
    ¬ threshold < delta (iterates DAMPING corpus (j + m))
                        (iterates DAMPING corpus (S (j + m))) →
    (m < depth)%nat →
    iterate_pure depth corpus (iterates DAMPING corpus j)
    = Ok (iterates DAMPING corpus (S (j + m))).
Proof.
  induction m as [|m IH]; intros depth j Hbefore Hat Hdepth;
    (destruct depth as [|depth]; [lia |]); cbn [iterate_pure].
  - rewrite Nat.add_0_r in Hat. cbn [iterates] in Hat.
    rewrite decide_False by done. by rewrite Nat.add_0_r.
  - pose proof (Hbefore 0%nat ltac:(lia)) as H0.
    rewrite Nat.add_0_r in H0. cbn [iterates] in H0.
    rewrite decide_True by done.
    change (pagerank_step DAMPING corpus (iterates DAMPING corpus j))
      with (iterates DAMPING corpus (S j)).
    rewrite (IH depth (S j)).
    + f_equal. f_equal. lia.
    + intros i Hi. specialize (Hbefore (S i) ltac:(lia)).
      by replace (j + S i)%nat with (S j + i)%nat in Hbefore by lia.
    + by replace (j + S m)%nat with (S j + m)%nat in Hat by lia.
    + lia.
Qed.

(** Without the store: the recursion stops at the first iterate that
    moved by at most the threshold, within 47 rounds. *)
Lemma iterate_pure_converges (corpus : graph) depth :
  is_dict corpus → corpus ≠ [] → (47 ≤ depth)%nat →
  ∃ m, (m < 47)%nat
    ∧ iterate_pure depth corpus (uniform corpus)
      = Ok (iterates DAMPING corpus (S m))
    ∧ delta (iterates DAMPING corpus m) (iterates DAMPING corpus (S m))
      ≤ threshold
    ∧ ∀ i, (i < m)%nat →
        threshold < delta (iterates DAMPING corpus i)
                          (iterates DAMPING corpus (S i)).
Proof.
  intros Hd Hne Hdepth.
  destruct (least_index
              (λ i, delta (iterates DAMPING corpus i)
                          (iterates DAMPING corpus (S i)) ≤ threshold) 46)
    as (m & Hm & Hconv & Hleast).
  { by apply delta_converged. }
  exists m. split; [lia |]. split; [| split; [done |]].
  - apply (iterate_pure_run corpus m depth 0).
    + intros i Hi. apply Qcnot_le_lt. by apply Hleast.
    + by apply Qcle_not_lt.
    + lia.
  - intros i Hi. apply Qcnot_le_lt. by apply Hleast.
Qed.

Lemma keys_uniform (corpus : graph) : keys (uniform corpus) = keys corpus.
Proof. apply (keys_map_build (λ _ _, 1 / Qc_of_Z (len corpus))). Qed.

(** The first loop of [iterate_pagerank] builds the uniform vector. *)
Lemma init_loop (corpus : graph) h t (l : graph) :
  Qc_of_Z (len corpus) ≠ 0 →
  ∀ acc, NoDup (keys acc ++ keys l) →
  forS (items l) (λ '(k, v),
         q ← lift (truediv 1 (Qc_of_Z (len corpus)));
         store_item (length h) k q)
       (State (h ++ [acc]) t)
  = (Ok (),
     State (h ++ [acc ++ map (λ kv, (kv.1, 1 / Qc_of_Z (len corpus))) l]) t).
Proof.
  intros HN. unfold forS, items.
  induction l as [|[k v] l IH]; intros acc Hnd; cbn [foldS map].
  - by rewrite app_nil_r.
  - assert (k ∉ keys acc) as Hk.
    { apply NoDup_app in Hnd as (_ & Hd & _). intros Hin.
      apply (Hd _ Hin). left. }
    lazymatch goal with
    | |- mbind ?F ?m ?s = _ =>
        assert (m s = (Ok (), State (h ++ [acc ++ [(k, 1 / Qc_of_Z (len corpus))]]) t))
          as Hbody
    end.
    { rewrite truediv_Ok by done.
      unfold mbind, M_bind, lift, store_item. cbn [temp heap].
      replace (length h) with (length h + 0)%nat at 1 by lia.
      rewrite alter_app_r. cbn [alter list_alter].
      by rewrite setitem_fresh by done. }
    rewrite (bind_Ok _ _ _ _ _ Hbody), IH.
    + by rewrite <-app_assoc.
    + unfold keys in *. rewrite fmap_app, <-app_assoc. exact Hnd.
Qed.

(** [iterate_pagerank] on any store: what it returns and what it does
    to the store. *)
Lemma iterate_pagerank_refines (corpus : graph) depth d s :
  is_dict corpus → corpus ≠ [] →
  ∃ s', heap s `prefix_of` heap s' ∧
    match iterate_pure depth corpus (uniform corpus) with
    | Ok r => ∃ l, iterate_pagerank depth corpus d s = (Ok l, s')
                   ∧ temp s' = Some l ∧ heap s' !! l = Some r
                   ∧ (length (heap s) < l)%nat
    | Raise e => iterate_pagerank depth corpus d s = (Raise e, s')
    end.
Proof.
  intros Hd Hne. destruct s as [h t].
  pose (s0 := State (h ++ [uniform corpus]) t).
  destruct (iterate_refines corpus Hne depth (length h) s0 (uniform corpus))
    as (s' & Hpre & Hres).
  { unfold s0. cbn [heap]. by rewrite list_lookup_middle. }
  { apply keys_uniform. }
  { by rewrite keys_uniform. }
  exists s'. split.
  { etrans; [| exact Hpre]. unfold s0. cbn [heap]. by apply prefix_app_r. }
  assert (∀ X, (out ← new_dict;
                _ ← forS (items corpus) (λ '(k, v),
                      q ← lift (truediv 1 (Qc_of_Z (len corpus)));
                      store_item out k q);
                iterate depth corpus out) (State h t) = X →
               iterate_pagerank depth corpus d (State h t) = X) as Hunf by done.
  assert (iterate_pagerank depth corpus d (State h t)
          = iterate depth corpus (length h) s0) as Hrun.
  { apply Hunf. mstep.
    erewrite bind_Ok; [reflexivity |].
    apply (init_loop corpus h t corpus (corpus_len_nonzero corpus Hne) []).
    done. }
  rewrite Hrun.
  destruct (iterate_pure depth corpus (uniform corpus)) as [r|e]; [| done].
  destruct Hres as (l & Hit & Htmp & Hl & Hfresh).
  exists l. repeat split; try done.
  unfold s0 in Hfresh. cbn [heap] in Hfresh. rewrite length_app in Hfresh.
  cbn [heap length] in *. lia.
Qed.

Lemma rank_of_nonneg (r : dict Qc) k :
  Forall (λ v, 0 ≤ v) (vals r) → 0 ≤ rank_of r k.
Proof.
  intros Hall. unfold rank_of. destruct (get r k) as [v|] eqn:E; [| done].
  apply get_Some_elem in E. rewrite Forall_forall in Hall. apply Hall.
  apply list_elem_of_fmap. by exists (k, v).
Qed.

Lemma update_lower_bound d (corpus : graph) (r : dict Qc) p :
  corpus ≠ [] → 0 ≤ d → Forall (λ v, 0 ≤ v) (vals r) →
  (1 - d) / Qc_of_Z (len corpus) ≤ update d corpus r p.
Proof.
  intros Hne Hd Hr. unfold update.
  rewrite <-(Qcplus_0_r ((1 - d) / Qc_of_Z (len corpus))) at 1.
  apply Qcplus_le_compat; [done |].
  apply Qcmult_nonneg_nonneg; [done |]. apply Qcsum_nonneg.
  apply Forall_forall. intros x Hx.
  apply list_elem_of_fmap in Hx as (il & -> & _).
  rewrite contribution_weight.
  apply Qcmult_nonneg_nonneg;
    [by apply rank_of_nonneg | by apply weight_nonneg].
Qed.

Lemma damping_floor_pos (corpus : graph) :
  corpus ≠ [] → 0 < (1 - DAMPING) / Qc_of_Z (len corpus).
Proof.
  intros Hne. unfold Qcdiv. apply Qcmult_pos_pos; [by_compute |].
  by apply Qcinv_pos, len_pos.
Qed.

Lemma iterates_lower_bound (corpus : graph) j :
  corpus ≠ [] →
  Forall (λ v, (1 - DAMPING) / Qc_of_Z (len corpus) ≤ v)
         (vals (iterates DAMPING corpus j)).
Proof.
  intros Hne. pose proof (damping_floor_pos corpus Hne) as Hpos.
  induction j as [|j IH]; cbn [iterates].
  - unfold uniform.
    rewrite (vals_map_build (λ _ _, 1 / Qc_of_Z (len corpus))).
    apply Forall_forall. intros v Hv.
    apply list_elem_of_fmap in Hv as (kv & -> & _).
    unfold Qcdiv. apply Qcmult_le_mono_nonneg_r; [| by_compute].
    by apply Qclt_le_weak, Qcinv_pos, len_pos.
  - unfold pagerank_step.
    rewrite (vals_map_build
               (λ k _, update DAMPING corpus (iterates DAMPING corpus j) k)).
    apply Forall_forall. intros v Hv.
    apply list_elem_of_fmap in Hv as (kv & -> & _).
    apply update_lower_bound; [done | by_compute |].
    eapply Forall_impl; [exact IH |]. intros v Hv. cbn beta in Hv.
    eapply Qcle_trans; [| exact Hv]. by apply Qclt_le_weak.
Qed.

Lemma run_iterate_pagerank_pure (corpus : graph) depth d r :
  is_dict corpus → corpus ≠ [] →
  iterate_pure depth corpus (uniform corpus) = Ok r →
  run_iterate_pagerank depth corpus d = Ok r.
Proof.
  intros Hd Hne Hpure.
  destruct (iterate_pagerank_refines corpus depth d init_state Hd Hne)
    as (s' & _ & Hres).
  rewrite Hpure in Hres. destruct Hres as (l & Hrun & _ & Hl & _).
  unfold run_iterate_pagerank. by rewrite Hrun, Hl.
Qed.

(** C3. On a non-empty graph [iterate_pagerank] starts from the vector
    that gives every page [1 / N], repeats the update while the largest
    per-page change exceeds 0.001, and returns the first iterate whose
    largest per-page change from its predecessor is at most 0.001.  No
    cap on the number of rounds is involved: the outcome is the same for
    every recursion limit from 47 on. *)
Theorem iterate_pagerank_converges (corpus : graph) d depth :
  is_dict corpus → corpus ≠ [] → (47 ≤ depth)%nat →
  iterates DAMPING corpus 0
  = map (λ kv, (kv.1, 1 / Qc_of_Z (len corpus))) corpus
  ∧ ∃ m, (m < 47)%nat
      ∧ run_iterate_pagerank depth corpus d
        = Ok (iterates DAMPING corpus (S m))
      ∧ delta (iterates DAMPING corpus m) (iterates DAMPING corpus (S m))
        ≤ Q2Qc (1 # 1000)
      ∧ ∀ i, (i < m)%nat →
          Q2Qc (1 # 1000) < delta (iterates DAMPING corpus i)
                                  (iterates DAMPING corpus (S i)).
Proof.
  intros Hd Hne Hdepth. split; [done |].
  destruct (iterate_pure_converges corpus depth Hd Hne Hdepth)
    as (m & Hm & Hpure & Hconv & Hbefore).
  exists m. repeat split; try done.
  by apply run_iterate_pagerank_pure.
Qed.

Lemma iterate_pagerank_converges_witness :
  iterates DAMPING three_pages 0
  = map (λ kv, (kv.1, 1 / Qc_of_Z (len three_pages))) three_pages
  ∧ ∃ m, (m < 47)%nat
      ∧ run_iterate_pagerank 1000 three_pages DAMPING
        = Ok (iterates DAMPING three_pages (S m))
      ∧ delta (iterates DAMPING three_pages m)
              (iterates DAMPING three_pages (S m))
        ≤ Q2Qc (1 # 1000)
      ∧ ∀ i, (i < m)%nat →
          Q2Qc (1 # 1000) < delta (iterates DAMPING three_pages i)
                                  (iterates DAMPING three_pages (S i)).
Proof.
  apply (iterate_pagerank_converges three_pages DAMPING 1000).
  - unfold is_dict. by_compute.
  - done.
  - lia.
Defined.

(** C10. On a non-empty graph every rank returned by [iterate_pagerank]
    is at least [(1 - 0.85) / N], hence strictly positive. *)
Theorem iterate_pagerank_lower_bound (corpus : graph) d depth :
  is_dict corpus → corpus ≠ [] → (47 ≤ depth)%nat →
  ∃ r, run_iterate_pagerank depth corpus d = Ok r
    ∧ keys r = keys corpus
    ∧ Forall (λ v, (1 - Q2Qc (85 # 100)) / Qc_of_Z (len corpus) ≤ v ∧ 0 < v)
             (vals r).
Proof.
  intros Hd Hne Hdepth.
  destruct (iterate_pure_converges corpus depth Hd Hne Hdepth)
    as (m & _ & Hpure & _).
  exists (iterates DAMPING corpus (S m)).
  split; [by apply run_iterate_pagerank_pure |].
  split; [apply keys_iterates |].
  eapply Forall_impl; [by apply iterates_lower_bound |].
  intros v Hv. cbn beta in Hv. split; [exact Hv |].
  eapply Qclt_le_trans; [by apply damping_floor_pos | exact Hv].
Qed.

Lemma iterate_pagerank_lower_bound_witness :
  ∃ r, run_iterate_pagerank 1000 dangling_pair DAMPING = Ok r
    ∧ keys r = keys dangling_pair
    ∧ Forall (λ v, (1 - Q2Qc (85 # 100)) / Qc_of_Z (len dangling_pair) ≤ v
                   ∧ 0 < v)
             (vals r).
Proof.
  apply (iterate_pagerank_lower_bound dangling_pair DAMPING 1000).
  - unfold is_dict. by_compute.
  - done.
  - lia.
Defined.

(** C9, counterexample: from a fresh interpreter, where the global
    [temp] is unbound, [iterate_pagerank] on the one-page graph returns
    the dict object 1 and leaves the global [temp] bound to that very
    object. *)
Lemma iterate_pagerank_global_counterexample :
  (iterate_pagerank 1000 single_page DAMPING init_state).1 = Ok 1%nat
  ∧ temp (iterate_pagerank 1000 single_page DAMPING init_state).2
    = Some 1%nat
  ∧ temp init_state = None.
Proof. repeat split; vm_compute; reflexivity. Qed.

(** C9, amended. [iterate_pagerank] modifies no dict that existed before
    the call and returns a dict allocated during the call, distinct from
    the initial vector it built; but the module-level variable [temp] is
    rebound, and on return it refers to the returned dict. *)
Theorem iterate_pagerank_store (corpus : graph) d depth s :
  is_dict corpus → corpus ≠ [] → (47 ≤ depth)%nat →
  ∃ l s', iterate_pagerank depth corpus d s = (Ok l, s')
    ∧ heap s `prefix_of` heap s'
    ∧ (length (heap s) < l)%nat
    ∧ temp s' = Some l.
Proof.
  intros Hd Hne Hdepth.
  destruct (iterate_pure_converges corpus depth Hd Hne Hdepth)
    as (m & _ & Hpure & _).
  destruct (iterate_pagerank_refines corpus depth d s Hd Hne)
    as (s' & Hpre & Hres).
  rewrite Hpure in Hres. destruct Hres as (l & Hrun & Htmp & _ & Hfresh).
  by exists l, s'.
Qed.

Lemma iterate_pagerank_store_witness :
  ∃ l s', iterate_pagerank 1000 three_pages DAMPING init_state = (Ok l, s')
    ∧ heap init_state `prefix_of` heap s'
    ∧ (length (heap init_state) < l)%nat
    ∧ temp s' = Some l.
Proof.
  apply (iterate_pagerank_store three_pages DAMPING 1000 init_state).
  - unfold is_dict. by_compute.
  - done.
  - lia.
Defined.

(** C1, at the failing input: with damping 0 the recurrence of the
    specification stops after one round at the uniform vector, since
    every updated rank is [1 / N]; the code returns what it returns for
    damping 0.85, a different vector. *)
Theorem iterate_pagerank_ignores_damping :
  delta (iterates 0 dangling_pair 0) (iterates 0 dangling_pair 1)
  ≤ Q2Qc (1 # 1000)
  ∧ run_iterate_pagerank 1000 dangling_pair 0
    = run_iterate_pagerank 1000 dangling_pair DAMPING
  ∧ run_iterate_pagerank 1000 dangling_pair 0
    ≠ Ok (iterates 0 dangling_pair 1).
Proof.
  split; [by_compute |]. split; [done |]. by_compute.
Qed.

(** C7, counterexample: on the empty graph the three estimators do not
    fail with one and the same condition. *)
Lemma empty_graph_counterexample :
  ¬ ∃ e, transition_model [] "a.html" DAMPING = Raise e
       ∧ sample_pagerank [] DAMPING 1 fixed_rng = Raise e
       ∧ (iterate_pagerank 1000 [] DAMPING init_state).1 = Raise e.
Proof.
  intros (e & H1 & H2 & _). vm_compute in H1. vm_compute in H2. congruence.
Qed.

(** C7, amended. On the empty graph no estimator returns a result, but
    none checks for it: [transition_model] fails on the page lookup with
    [KeyError], as for any unknown page; [sample_pagerank] fails with
    [IndexError] when [random.choice] gets an empty list;
    [iterate_pagerank] fails with [ValueError] when [max] gets an empty
    list, after it has bound the global [temp] to a new empty dict. *)
Theorem empty_graph_failures page d n g depth s :
  transition_model [] page d = Raise (KeyError page)
  ∧ sample_pagerank [] d n g = Raise IndexError
  ∧ iterate_pagerank (S depth) [] d s
    = (Raise ValueError,
       State (heap s ++ [[]; []]) (Some (S (length (heap s))))).
Proof.
  split; [done |]. split.
  - unfold sample_pagerank. cbn [items foldM]. rsimpl.
    change (keys ([] : graph)) with (@nil string).
    by rewrite choice_empty.
  - destruct s as [h t]. cbn [heap].
    unfold iterate_pagerank. mstep. mstep. cbn [iterate]. mstep. mstep. mstep.
    rewrite lookup_app_l by (rewrite length_app; simpl; lia).
    rewrite list_lookup_middle by done. cbn [default from_option id items].
    mstep. mstep. rewrite lookup_app_l by (rewrite length_app; simpl; lia).
    rewrite list_lookup_middle by done. cbn [default from_option id].
    mstep. mstep.
    replace (length (h ++ [[]])) with (length h + 1)%nat
      by (rewrite length_app; simpl; lia).
    rewrite <-(app_assoc h [[]] [[]]). cbn [app].
    rewrite (lookup_app_r h) by lia.
    replace (length h + 1 - length h)%nat with 1%nat by lia.
    cbn [lookup list_lookup default from_option id vals fmap list_fmap length seq foldS].
    mstep. erewrite bind_Raise by reflexivity.
    f_equal. f_equal. f_equal. lia.
Qed.

(** ** [crawl] *)

Lemma get_app_fresh {V} (a b : dict V) k :
  k ∉ keys a → get (a ++ b) k = get b k.
Proof.
  induction a as [|[k' v'] a IH]; simpl; [done |].
  rewrite not_elem_of_cons. intros [Hne Hk].
  rewrite decide_False by done. by apply IH.
Qed.

Lemma setitem_app_fresh {V} (a b : dict V) k v :
  k ∉ keys a → setitem (a ++ b) k v = a ++ setitem b k v.
Proof.
  induction a as [|[k' v'] a IH]; simpl; [done |].
  rewrite not_elem_of_cons. intros [Hne Hk].
  rewrite decide_False by done. f_equal. by apply IH.
Qed.

(** The first loop of [crawl]: one entry per [.html] file, holding the
    targets found in it, the file itself excepted. *)
Lemma crawl_read (findall : string → list string)
    (directory : list (string * string)) :
  ∀ acc : graph, NoDup (keys acc ++ directory.*1) →
  fold_left (λ (pages : graph) '(filename, contents),
               if negb (endswith filename ".html") then pages
               else
                 let links := findall contents in
                 setitem pages filename
                         (list_to_set links ∖ {[filename]}))
            directory acc
  = acc ++ map (λ fc, (fc.1, list_to_set (findall fc.2) ∖ {[fc.1]}))
               (html_files directory).
Proof.
  unfold html_files.
  induction directory as [|[f c] dir IH]; intros acc Hnd; cbn [fold_left].
  - by rewrite app_nil_r.
  - assert (f ∉ keys acc) as Hf.
    { apply NoDup_app in Hnd as (_ & Hd & _). intros Hin.
      apply (Hd _ Hin). left. }
    rewrite filter_cons. cbn [fst].
    destruct (endswith f ".html") eqn:E; cbn [negb].
    + rewrite decide_True by done. cbn zeta.
      rewrite setitem_fresh by done. rewrite IH.
      * cbn [map fst snd]. by rewrite <-app_assoc.
      * unfold keys in *. rewrite fmap_app, <-app_assoc. exact Hnd.
    + rewrite decide_False by done. apply IH.
      cbn [fmap list_fmap fst] in Hnd.
      apply NoDup_app in Hnd as (Ha & Hd & Hdir).
      apply NoDup_cons in Hdir as [_ Hdir].
      apply NoDup_app. repeat split; [done | | done].
      intros x Hx Hx'. apply (Hd x Hx). by right.
Qed.

(** The second loop of [crawl]: every link set is cut down to the keys
    of the dict. *)
Lemma crawl_restrict_from (ks : list string) :
  NoDup ks →
  ∀ (rest acc : graph), keys (acc ++ rest) = ks →
  foldM (λ (pages : graph) filename,
           links ← getitem pages filename;
           Ok (setitem pages filename
                 (filter (λ link, link ∈ keys pages) links)))
        (acc ++ rest) (keys rest)
  = Ok (acc ++ map (λ kv, (kv.1, filter (λ link, link ∈ ks) kv.2)) rest).
Proof.
  intros Hnd. induction rest as [|[k v] rest IH]; intros acc Hks; [done |].
  change (keys ((k, v) :: rest)) with (k :: keys rest). cbn [foldM].
  assert (k ∉ keys acc) as Hk.
  { rewrite <-Hks in Hnd. unfold keys in Hnd. rewrite fmap_app in Hnd.
    apply NoDup_app in Hnd as (_ & Hd & _). intros Hin.
    apply (Hd _ Hin). left. }
  unfold getitem. rewrite get_app_fresh by done. cbn [get].
  rewrite decide_True by done. rsimpl.
  rewrite setitem_app_fresh by done. cbn [setitem].
  rewrite decide_True by done. rewrite Hks.
  replace (acc ++ (k, filter (λ link, link ∈ ks) v) :: rest)
    with ((acc ++ [(k, filter (λ link, link ∈ ks) v)]) ++ rest)
    by (by rewrite <-app_assoc).
  rewrite IH.
  - cbn [map fst snd]. by rewrite <-app_assoc.
  - etrans; [| exact Hks]. unfold keys. by rewrite !fmap_app, <-app_assoc.
Qed.

Lemma keys_html_files findall (directory : list (string * string)) :
  keys (map (λ fc, (fc.1, list_to_set (findall fc.2) ∖ {[fc.1]} : gset string))
            (html_files directory))
  = (html_files directory).*1.
Proof.
  unfold keys. induction (html_files directory) as [|[f c] l IH]; simpl;
    [done | by f_equal].
Qed.

Lemma NoDup_html_files (directory : list (string * string)) :
  NoDup directory.*1 → NoDup (html_files directory).*1.
Proof.
  unfold html_files. induction directory as [|[f c] dir IH]; [done |].
  cbn [fmap list_fmap fst]. rewrite NoDup_cons. intros [Hf Hnd].
  rewrite filter_cons. case_decide; [| by apply IH].
  cbn [fmap list_fmap fst]. apply NoDup_cons. split; [| by apply IH].
  intros Hin. apply Hf. apply list_elem_of_fmap in Hin as (fc & -> & Hfc).
  apply list_elem_of_filter in Hfc as [_ Hfc].
  apply list_elem_of_fmap. by exists fc.
Qed.

(** [crawl] in closed form, for a directory whose entries have distinct
    names. *)
Lemma crawl_eq findall (directory : list (string * string)) :
  NoDup directory.*1 →
  crawl findall directory
  = Ok (map (λ fc, (fc.1,
                    filter (λ link, link ∈ (html_files directory).*1)
                           (list_to_set (findall fc.2) ∖ {[fc.1]})))
            (html_files directory)).
Proof.
  intros Hnd. unfold crawl. rewrite crawl_read by done. cbn [app].
  pose proof (crawl_restrict_from (html_files directory).*1
                (NoDup_html_files directory Hnd)
                (map (λ fc, (fc.1, list_to_set (findall fc.2) ∖ {[fc.1]}))
                     (html_files directory)) []) as H.
  cbn [app] in H. rewrite H by apply keys_html_files. rsimpl.
  by rewrite map_map.
Qed.

Lemma keys_map_fst {V W} (g : string * V → W) (l : list (string * V)) :
  keys (map (λ fc, (fc.1, g fc)) l) = l.*1.
Proof. unfold keys. induction l as [|[f c] l IH]; simpl; [done | by f_equal]. Qed.

Lemma crawl_keys findall (directory : list (string * string)) pages :
  NoDup directory.*1 → crawl findall directory = Ok pages →
  keys pages = (html_files directory).*1.
Proof.
  intros Hnd Hc. rewrite crawl_eq in Hc by done. injection Hc as <-.
  apply (keys_map_fst
           (λ fc, filter (λ link, link ∈ (html_files directory).*1)
                         (list_to_set (findall fc.2) ∖ {[fc.1]}))).
Qed.

Lemma crawl_is_dict findall (directory : list (string * string)) pages :
  NoDup directory.*1 → crawl findall directory = Ok pages → is_dict pages.
Proof.
  intros Hnd Hc. unfold is_dict. rewrite (crawl_keys findall directory) by done.
  by apply NoDup_html_files.
Qed.

Lemma crawl_entry findall (directory : list (string * string)) pages p links :
  NoDup directory.*1 → crawl findall directory = Ok pages →
  (p, links) ∈ pages →
  ∃ c, (p, c) ∈ directory ∧ endswith p ".html" = true
       ∧ links = filter (λ link, link ∈ keys pages)
                        (list_to_set (findall c) ∖ {[p]}).
Proof.
  intros Hnd Hc Hin.
  pose proof (crawl_keys findall directory pages Hnd Hc) as Hk.
  rewrite crawl_eq in Hc by done. injection Hc as <-.
  apply list_elem_of_fmap in Hin as ([f c] & [= -> ->] & Hfc).
  cbn [fst snd]. exists c. unfold html_files in Hfc.
  apply list_elem_of_filter in Hfc as [He Hfc].
  repeat split; [done | done |]. by rewrite Hk.
Qed.

Lemma crawl_closed_pages findall (directory : list (string * string)) pages :
  NoDup directory.*1 → crawl findall directory = Ok pages → closed pages.
Proof.
  intros Hnd Hc. unfold closed. apply Forall_forall. intros [p links] Hin.
  destruct (crawl_entry findall directory pages p links Hnd Hc Hin)
    as (c & _ & _ & ->).
  cbn [snd]. intros link Hl. apply elem_of_filter in Hl as [Hl _].
  by apply elem_of_list_to_set.
Qed.

(** X1. [crawl] returns a dict with exactly one page per directory entry
    whose name ends in [.html]; other files are ignored. *)
Theorem crawl_pages findall (directory : list (string * string)) :
  NoDup directory.*1 →
  ∃ pages, crawl findall directory = Ok pages
    ∧ is_dict pages
    ∧ ∀ f, f ∈ keys pages
           ↔ f ∈ directory.*1 ∧ endswith f ".html" = true.
Proof.
  intros Hnd. eexists. split; [by apply crawl_eq |].
  split; [by eapply crawl_is_dict, crawl_eq |].
  intros f. rewrite (crawl_keys findall directory _ Hnd (crawl_eq _ _ Hnd)).
  unfold html_files. rewrite !list_elem_of_fmap. split.
  - intros (fc & -> & Hfc). apply list_elem_of_filter in Hfc as [He Hfc].
    split; [by exists fc | done].
  - intros [(fc & -> & Hfc) He]. exists fc. split; [done |].
    by apply list_elem_of_filter.
Qed.

Lemma crawl_pages_witness :
  ∃ pages, crawl whole_contents sample_directory = Ok pages
    ∧ is_dict pages
    ∧ ∀ f, f ∈ keys pages
           ↔ f ∈ sample_directory.*1 ∧ endswith f ".html" = true.
Proof.
  apply (crawl_pages whole_contents sample_directory). by_compute.
Defined.

(** X2. The graph [crawl] returns is a closed universe: every link of
    every page names a page of the graph. *)
Theorem crawl_closed findall (directory : list (string * string)) :
  NoDup directory.*1 →
  ∃ pages, crawl findall directory = Ok pages
    ∧ ∀ p links link,
        get pages p = Some links → link ∈ links → link ∈ keys pages.
Proof.
  intros Hnd. eexists. split; [by apply crawl_eq |].
  intros p links link Hget Hl.
  pose proof (crawl_closed_pages findall directory _ Hnd (crawl_eq _ _ Hnd))
    as Hc.
  pose proof (closed_links _ p links Hc Hget link Hl) as Hin.
  by apply elem_of_list_to_set in Hin.
Qed.

Lemma crawl_closed_witness :
  ∃ pages, crawl whole_contents sample_directory = Ok pages
    ∧ ∀ p links link,
        get pages p = Some links → link ∈ links → link ∈ keys pages.
Proof.
  apply (crawl_closed whole_contents sample_directory). by_compute.
Defined.

(** X3. In the graph [crawl] returns no page links to itself. *)
Theorem crawl_no_self_link findall (directory : list (string * string)) :
  NoDup directory.*1 →
  ∃ pages, crawl findall directory = Ok pages
    ∧ ∀ p links, get pages p = Some links → p ∉ links.
Proof.
  intros Hnd. eexists. split; [by apply crawl_eq |].
  intros p links Hget%get_Some_elem.
  destruct (crawl_entry findall directory _ p links Hnd (crawl_eq _ _ Hnd) Hget)
    as (c & _ & _ & ->).
  intros Hp. apply elem_of_filter in Hp as [_ Hp].
  apply elem_of_difference in Hp as [_ Hp]. apply Hp. by apply elem_of_singleton.
Qed.

Lemma crawl_no_self_link_witness :
  ∃ pages, crawl whole_contents sample_directory = Ok pages
    ∧ ∀ p links, get pages p = Some links → p ∉ links.
Proof.
  apply (crawl_no_self_link whole_contents sample_directory). by_compute.
Defined.

(** X4. The links [crawl] records for an [.html] file are exactly the
    targets found in its contents that are other pages of the graph. *)
Theorem crawl_links findall (directory : list (string * string)) f c :
  NoDup directory.*1 → (f, c) ∈ directory → endswith f ".html" = true →
  ∃ pages links, crawl findall directory = Ok pages
    ∧ get pages f = Some links
    ∧ ∀ link, link ∈ links
              ↔ link ∈ findall c ∧ link ≠ f ∧ link ∈ keys pages.
Proof.
  intros Hnd Hfc He.
  pose proof (crawl_eq findall directory Hnd) as Hc.
  pose proof (crawl_keys findall directory _ Hnd Hc) as Hk.
  pose proof (crawl_is_dict findall directory _ Hnd Hc) as Hd.
  eexists. exists (filter (λ link, link ∈ (html_files directory).*1)
                          (list_to_set (findall c) ∖ {[f]})).
  split; [exact Hc |]. split.
  - apply get_elem_Some; [done |].
    apply list_elem_of_fmap. exists (f, c). split; [done |].
    unfold html_files. by apply list_elem_of_filter.
  - intros link. rewrite Hk, elem_of_filter, elem_of_difference,
      elem_of_list_to_set, elem_of_singleton. tauto.
Qed.

Lemma crawl_links_witness :
  ∃ pages links, crawl whole_contents sample_directory = Ok pages
    ∧ get pages "1.html" = Some links
    ∧ ∀ link, link ∈ links
              ↔ link ∈ whole_contents "2.html" ∧ link ≠ "1.html"
                ∧ link ∈ keys pages.
Proof.
  apply (crawl_links whole_contents sample_directory "1.html" "2.html").
  - by_compute.
  - by_compute.
  - reflexivity.
Defined.

(** ** More on [transition_model] *)

Lemma round_half_even_le (q : Q) (n : Z) :
  (q <= inject_Z n)%Q → (round_half_even q <= n)%Z.
Proof.
  intros Hq. unfold round_half_even.
  pose proof (Qfloor_le q) as Hlo.
  assert (Qfloor q <= n)%Z as Hf.
  { rewrite <-(Qfloor_Z n). by apply Qfloor_resp_le. }
  destruct (Qcompare_spec (q - inject_Z (Qfloor q)) (1 # 2)) as [He|Hl|Hg].
  - destruct (Z.even _); [done |].
    destruct (decide (Qfloor q = n)) as [E|E]; [| lia].
    rewrite E in He. lra.
  - done.
  - destruct (decide (Qfloor q = n)) as [E|E]; [| lia].
    rewrite E in Hg. lra.
Qed.

Lemma round_le_1 (x : Qc) : x ≤ 1 → round x 4 ≤ 1.
Proof.
  intros Hx. unfold round.
  change (inject_Z (10 ^ Z.of_nat 4)) with (10000 # 1)%Q.
  assert (round_half_even (x * (10000 # 1)) <= 10000)%Z as H.
  { apply round_half_even_le. change (inject_Z 10000) with (10000 # 1)%Q.
    qc2q. lra. }
  rewrite Zle_Qle in H. change (inject_Z 10000) with (10000 # 1)%Q in H.
  qc2q. lra.
Qed.

Lemma round_small (x : Qc) : 0 ≤ x → x < Q2Qc (1 # 20000) → round x 4 = 0.
Proof.
  intros H0 H1. unfold round.
  change (inject_Z (10 ^ Z.of_nat 4)) with (10000 # 1)%Q.
  assert (round_half_even (x * (10000 # 1)) = 0%Z) as ->.
  { unfold round_half_even.
    assert (Qfloor (x * (10000 # 1)) = 0%Z) as ->.
    { pose proof (Qfloor_le (x * (10000 # 1))) as Hlo.
      pose proof (Qlt_floor (x * (10000 # 1))) as Hhi.
      assert (0 <= Qfloor (x * (10000 # 1)))%Z as Hge.
      { change 0%Z with (Qfloor 0). apply Qfloor_resp_le. qc2q. lra. }
      assert (Qfloor (x * (10000 # 1)) < 1)%Z as Hlt; [| lia].
      rewrite Zlt_Qlt. change (inject_Z 1) with 1%Q. qc2q. lra. }
    destruct (Qcompare_spec (x * (10000 # 1) - inject_Z 0) (1 # 2))
      as [He|Hl|Hg]; [| done |].
    - change (inject_Z 0) with 0%Q in He. qc2q. lra.
    - change (inject_Z 0) with 0%Q in Hg. qc2q. lra. }
  by apply Qc_is_canon.
Qed.

Lemma Qcdiv_le_self (x y : Qc) : 0 ≤ x → 1 ≤ y → x / y ≤ x.
Proof.
  intros Hx Hy. unfold Qcdiv.
  assert (0 < y) as Hpos by (eapply Qclt_le_trans; [| exact Hy]; by_compute).
  assert (y ≠ 0) as Hne by (intros ->; by apply Qclt_not_eq in Hpos).
  rewrite <-(Qcmult_1_r x) at 2. apply Qcmult_le_mono_nonneg_l; [done |].
  apply (Qcmult_le_mono_nonneg_r _ _ (/ y)) in Hy.
  - by rewrite Qcmult_1_l, Qcmult_inv_r in Hy.
  - by apply Qclt_le_weak, Qcinv_pos.
Qed.

Lemma Qc_of_Z_ge_1 (z : Z) : (1 ≤ z)%Z → 1 ≤ Qc_of_Z z.
Proof. intros. rewrite <-Z2Qc_inj_1. by apply (proj1 (Z2Qc_inj_le _ _)). Qed.

Lemma probability_le_1 n links d p :
  (0 < n)%Z → 0 ≤ d → d ≤ 1 → probability n links d p ≤ 1.
Proof.
  intros Hn Hd0 Hd1.
  assert (1 ≤ Qc_of_Z n) as HN by (apply Qc_of_Z_ge_1; lia).
  assert (0 ≤ 1 - d) as Hd' by (qc2q; lra).
  unfold probability. repeat case_decide.
  - eapply Qcle_trans; [by apply Qcdiv_le_self | done].
  - assert (1 ≤ Qc_of_Z (Z.of_nat (size links))) as HL
      by (apply Qc_of_Z_ge_1; lia).
    pose proof (Qcdiv_le_self d _ Hd0 HL) as H1.
    pose proof (Qcdiv_le_self (1 - d) _ Hd' HN) as H2.
    apply Qcle_trans with (d + (1 - d));
      [by apply Qcplus_le_compat | apply Qcle_eq; ring].
  - apply round_le_1.
    eapply Qcle_trans; [by apply Qcdiv_le_self |]. qc2q. lra.
Qed.

(** X5. For a page of the graph and damping in [0,1], every value of
    the distribution [transition_model] returns lies in [0,1]. *)
Theorem transition_model_unit_interval (corpus : graph) page links d :
  is_dict corpus → get corpus page = Some links → 0 ≤ d → d ≤ 1 →
  ∃ out, transition_model corpus page d = Ok out
    ∧ Forall (λ v, 0 ≤ v ∧ v ≤ 1) (vals out).
Proof.
  intros Hd Hget Hd0 Hd1.
  assert (0 < len corpus)%Z as Hlen.
  { unfold len. destruct corpus; [done | simpl; lia]. }
  eexists. split; [by apply transition_model_eq |].
  rewrite (vals_map_build (λ k _, probability (len corpus) links d k)).
  apply Forall_forall. intros v Hv.
  apply list_elem_of_fmap in Hv as (kv & -> & _).
  split; [by apply probability_nonneg | by apply probability_le_1].
Qed.

Lemma transition_model_unit_interval_witness :
  ∃ out, transition_model three_pages "2.html" DAMPING = Ok out
    ∧ Forall (λ v, 0 ≤ v ∧ v ≤ 1) (vals out).
Proof.
  apply (transition_model_unit_interval three_pages "2.html"
           {["1.html"; "3.html"]} DAMPING).
  - unfold is_dict. by_compute.
  - reflexivity.
  - by_compute.
  - by_compute.
Defined.

(** X6. When [(1 - damping) / N] is below 0.00005 the rounding of the
    unlinked branch gives 0: a page that the current page does not link
    to gets probability exactly 0. *)
Theorem transition_model_teleport_vanishes (corpus : graph) page links d p :
  is_dict corpus → get corpus page = Some links → size links ≠ 0%nat →
  p ∈ keys corpus → p ∉ links →
  d ≤ 1 → (1 - d) / Qc_of_Z (len corpus) < Q2Qc (1 # 20000) →
  ∃ out, transition_model corpus page d = Ok out ∧ get out p = Some 0.
Proof.
  intros Hd Hget Hsz Hp Hnl Hd1 Hsmall.
  eexists. split; [by apply transition_model_eq |].
  rewrite (get_map_build (λ k _, probability (len corpus) links d k)).
  destruct (get corpus p) eqn:E; [| by apply get_None_iff in E].
  cbn [fmap option_fmap option_map]. f_equal.
  unfold probability. rewrite !decide_False by done.
  apply round_small; [| done].
  apply Qcdiv_nonneg; [qc2q; lra |].
  apply len_pos. by intros ->.
Qed.

Lemma transition_model_teleport_vanishes_witness :
  ∃ out, transition_model three_pages "1.html" (Q2Qc (9999 # 10000)) = Ok out
    ∧ get out "3.html" = Some 0.
Proof.
  apply (transition_model_teleport_vanishes three_pages "1.html"
           {["2.html"]} (Q2Qc (9999 # 10000)) "3.html").
  - unfold is_dict. by_compute.
  - reflexivity.
  - by_compute.
  - by_compute.
  - by_compute.
  - by_compute.
  - by_compute.
Defined.

(** ** More on [sample_pagerank] *)

Lemma frequencies_single (corpus : graph) start n :
  n ≠ 0%Z →
  frequencies corpus [start] n
  = map (λ kv, (kv.1, if decide (kv.1 = start) then 1 / Qc_of_Z n else 0))
        corpus.
Proof.
  intros Hn. unfold frequencies. apply map_ext. intros [k v]. cbn [fst].
  f_equal. unfold visit_count. rewrite filter_cons, filter_nil.
  destruct (decide (k = start)) as [->|Hk].
  - rewrite decide_True by done. cbn [length].
    change (Z.of_nat 1) with 1%Z. by rewrite Z2Qc_inj_1.
  - rewrite decide_False by done. cbn [length].
    change (Z.of_nat 0) with 0%Z. rewrite Z2Qc_inj_0. unfold Qcdiv. ring.
Qed.

(** X7. With [n = 1] no transition is drawn: whatever the damping and
    the links, [sample_pagerank] on a non-empty graph returns rank 1 for
    the starting page and 0 for every other page. *)
Theorem sample_pagerank_one_sample (corpus : graph) d g :
  is_dict corpus → corpus ≠ [] →
  ∃ start, choice g (keys corpus) = Ok start
    ∧ sample_pagerank corpus d 1 g
      = Ok (map (λ kv, (kv.1, if decide (kv.1 = start) then 1 else 0))
                corpus).
Proof.
  intros Hd Hne.
  destruct (choice_nonempty g (keys corpus)) as (start & Hstart & Hin).
  { by destruct corpus. }
  exists start. split; [done |].
  rewrite (sample_pagerank_walk corpus d 1 g [start]); [| done | done |].
  - rewrite decide_False by done.
    rewrite frequencies_single by done. rewrite Z2Qc_inj_1.
    replace (1 / 1) with 1; [done |].
    unfold Qcdiv. by rewrite Qcmult_inv_r.
  - unfold random_walk. by rewrite Hstart.
Qed.

Lemma sample_pagerank_one_sample_witness :
  ∃ start, choice fixed_rng (keys three_pages) = Ok start
    ∧ sample_pagerank three_pages 0 1 fixed_rng
      = Ok (map (λ kv, (kv.1, if decide (kv.1 = start) then 1 else 0))
                three_pages).
Proof.
  apply (sample_pagerank_one_sample three_pages 0 fixed_rng).
  - unfold is_dict. by_compute.
  - done.
Defined.

Lemma foldM_Raise {A B} (f : A → B → result A) a x l e :
  f a x = Raise e → foldM f a (x :: l) = Raise e.
Proof. intros H. cbn [foldM]. by rewrite H. Qed.

(** X8. When the damping is not positive and the starting page has no
    outgoing link, every weight of the first draw is [damping / N <= 0]:
    for [n >= 2] the sampler fails with [ValueError] in
    [random.choices]. *)
Theorem sample_pagerank_no_weight (corpus : graph) d n g start links :
  is_dict corpus → choice g (keys corpus) = Ok start →
  get corpus start = Some links → size links = 0%nat →
  d ≤ 0 → (2 ≤ n)%Z →
  sample_pagerank corpus d n g = Raise ValueError.
Proof.
  intros Hd Hstart Hget Hsz Hd0 Hn.
  assert (corpus ≠ []) as Hne by (by intros ->).
  assert (start ∈ keys corpus) as Hin.
  { unfold choice in Hstart. apply index_Ok in Hstart.
    by eapply list_elem_of_lookup_2. }
  unfold sample_pagerank. rewrite counts_nil by done. rsimpl.
  rewrite Hstart. rsimpl.
  rewrite record_visit_bump;
    [| unfold is_dict; by rewrite keys_counts | by rewrite keys_counts].
  rsimpl. rewrite (transition_model_eq corpus start links d Hd Hget). rsimpl.
  replace (Z.to_nat (n - 1)) with (S (Z.to_nat (n - 2))) by lia.
  cbn [seq]. erewrite foldM_Raise; [done |].
  rewrite (keys_map_build (λ k _, probability (len corpus) links d k)).
  rewrite (vals_map_build (λ k _, probability (len corpus) links d k)).
  rewrite choices_zero; [done | | |].
  - by destruct corpus.
  - unfold keys. by rewrite length_map, length_fmap.
  - by rewrite transition_model_sum_dangling.
Qed.

Lemma sample_pagerank_no_weight_witness :
  sample_pagerank dangling_pair 0 10 fixed_rng = Raise ValueError.
Proof.
  apply (sample_pagerank_no_weight dangling_pair 0 10 fixed_rng "A" ∅).
  - unfold is_dict. by_compute.
  - reflexivity.
  - reflexivity.
  - reflexivity.
  - by_compute.
  - lia.
Defined.

Lemma visit_count_le walk p : (visit_count walk p ≤ Z.of_nat (length walk))%Z.
Proof.
  unfold visit_count. pose proof (length_filter (λ q, q = p) walk). lia.
Qed.

Lemma frequencies_le_1 (corpus : graph) walk n :
  Z.of_nat (length walk) = n → (0 < n)%Z →
  Forall (λ v, v ≤ 1) (vals (frequencies corpus walk n)).
Proof.
  intros Hlen Hn. unfold frequencies.
  rewrite (vals_map_build (λ k _, Qc_of_Z (visit_count walk k) / Qc_of_Z n)).
  apply Forall_forall. intros v Hv.
  apply list_elem_of_fmap in Hv as (kv & -> & _).
  assert (0 < Qc_of_Z n) as HN
    by (rewrite <-Z2Qc_inj_0; by apply (proj1 (Z2Qc_inj_lt _ _))).
  assert (Qc_of_Z n ≠ 0) as HN' by (intros E; rewrite E in HN; by apply Qclt_not_eq in HN).
  rewrite <-(Qcmult_inv_r (Qc_of_Z n)) by done. unfold Qcdiv.
  apply Qcmult_le_mono_nonneg_r; [by apply Qclt_le_weak, Qcinv_pos |].
  apply (proj1 (Z2Qc_inj_le _ _)). rewrite <-Hlen. apply visit_count_le.
Qed.

(** What the sampler returns on a closed graph with positive damping. *)
Lemma sample_pagerank_ranks (corpus : graph) d n g :
  is_dict corpus → corpus ≠ [] → closed corpus →
  0 < d → d ≤ 1 → (1 ≤ n)%Z →
  ∃ ranks, sample_pagerank corpus d n g = Ok ranks
    ∧ keys ranks = keys corpus
    ∧ Forall (λ v, 0 ≤ v ∧ v ≤ 1) (vals ranks)
    ∧ Qcsum (vals ranks) = 1.
Proof.
  intros Hd Hne Hc Hd0 Hd1 Hn.
  destruct (choice_nonempty g (keys corpus)) as (start & Hstart & Hin).
  { by destruct corpus. }
  destruct (walk_from_total corpus d g (Z.to_nat (n - 1)) Hd Hc Hd0 Hd1
              0%nat start Hin) as (rest & Hrest & Hlen & Hall).
  assert (random_walk corpus d n g = Ok (start :: rest)) as Hwalk.
  { unfold random_walk. rewrite Hstart. rsimpl. by rewrite Hrest. }
  assert (Z.of_nat (length (start :: rest)) = n) as Hlen'.
  { cbn [length]. lia. }
  exists (frequencies corpus (start :: rest) n). split; [| split; [| split]].
  - rewrite (sample_pagerank_walk corpus d n g (start :: rest)) by done.
    by rewrite decide_False by lia.
  - apply (keys_map_build
             (λ k _, Qc_of_Z (visit_count (start :: rest) k) / Qc_of_Z n)).
  - pose proof (frequencies_nonneg corpus (start :: rest) n ltac:(lia)) as H0.
    pose proof (frequencies_le_1 corpus (start :: rest) n Hlen' ltac:(lia))
      as H1.
    rewrite Forall_forall in H0, H1. apply Forall_forall. intros v Hv.
    split; [by apply H0 | by apply H1].
  - apply frequencies_sum; [done | by constructor | done | lia].
Qed.

(** ** More on [iterate_pagerank] *)

Lemma weight_sum_closed (corpus : graph) links :
  is_dict corpus → corpus ≠ [] → links ⊆ list_to_set (keys corpus) →
  Qcsum (map (weight (len corpus) links) (keys corpus)) = 1.
Proof.
  intros Hd Hne Hsub. pose proof (corpus_len_nonzero corpus Hne) as HN.
  unfold weight. destruct (decide (size links = 0%nat)) as [Hsz|Hsz].
  - rewrite Qcsum_const. unfold keys. rewrite length_fmap. fold (len corpus).
    by rewrite Qcmult_inv_r.
  - rewrite (Qcsum_ite (.∈ links)), length_filter_links by done.
    rewrite Qcmult_0_r, Qcplus_0_r. apply Qcmult_inv_r.
    intros E. apply Qc_of_Z_eq_0 in E. lia.
Qed.

Lemma map_rank_of_keys (r : dict Qc) :
  is_dict r → map (rank_of r) (keys r) = vals r.
Proof.
  intros Hd. rewrite <-(map_on_keys (rank_of r) r). unfold vals.
  apply list_eq. intros i. rewrite !list_lookup_fmap.
  destruct (r !! i) as [[k v]|] eqn:E; [| done].
  cbn [fmap option_fmap option_map fst snd]. f_equal.
  apply rank_of_elem; [done |]. by eapply list_elem_of_lookup_2.
Qed.

(** The total rank after one step of the recurrence. *)
Lemma sum_step d (corpus : graph) (r : dict Qc) :
  corpus ≠ [] → keys r = keys corpus →
  Qcsum (vals (pagerank_step d corpus r))
  = (1 - d)
    + d * Qcsum (map (λ il, rank_of r il.1
                            * Qcsum (map (weight (len corpus) il.2)
                                         (keys corpus))) corpus).
Proof.
  intros Hne Hk. pose proof (corpus_len_nonzero corpus Hne) as HN.
  unfold pagerank_step.
  rewrite (vals_map_build (λ k _, update d corpus r k)). cbn beta.
  rewrite (map_on_keys (update d corpus r) r), Hk. unfold update.
  rewrite (Qcsum_plus (λ _, (1 - d) / Qc_of_Z (len corpus))
             (λ p, d * Qcsum (map (contribution (len corpus) r p) corpus))).
  rewrite Qcsum_const. unfold keys at 1. rewrite length_fmap. fold (len corpus).
  rewrite (Qcsum_scale_l
             (λ p, Qcsum (map (contribution (len corpus) r p) corpus))).
  rewrite (Qcsum_ext_in
             (λ p, Qcsum (map (contribution (len corpus) r p) corpus))
             (λ p, Qcsum (map (λ il, rank_of r il.1
                                     * weight (len corpus) il.2 p) corpus))).
  2:{ intros p _. apply Qcsum_ext_in. intros il _. apply contribution_weight. }
  rewrite (Qcsum_exchange (λ p il, rank_of r il.1 * weight (len corpus) il.2 p)).
  rewrite (Qcsum_ext_in
             (λ il, Qcsum (map (λ p, rank_of r il.1
                                     * weight (len corpus) il.2 p)
                               (keys corpus)))
             (λ il, rank_of r il.1
                    * Qcsum (map (weight (len corpus) il.2) (keys corpus)))).
  2:{ intros il _. apply Qcsum_scale_l. }
  f_equal. field. done.
Qed.

Lemma sum_step_closed d (corpus : graph) (r : dict Qc) :
  is_dict corpus → corpus ≠ [] → closed corpus → keys r = keys corpus →
  Qcsum (vals (pagerank_step d corpus r)) = (1 - d) + d * Qcsum (vals r).
Proof.
  intros Hd Hne Hc Hk. rewrite sum_step by done. do 2 f_equal.
  rewrite <-map_rank_of_keys by (unfold is_dict; by rewrite Hk).
  rewrite Hk, <-(map_on_keys (rank_of r) corpus).
  apply Qcsum_ext_in. intros [i links] Hin. cbn [fst snd].
  rewrite weight_sum_closed; [ring | done | done |].
  unfold closed in Hc. rewrite Forall_forall in Hc. apply (Hc _ Hin).
Qed.

Lemma sum_step_le d (corpus : graph) (r : dict Qc) :
  is_dict corpus → corpus ≠ [] → keys r = keys corpus → 0 ≤ d →
  Forall (λ v, 0 ≤ v) (vals r) →
  Qcsum (vals (pagerank_step d corpus r)) ≤ (1 - d) + d * Qcsum (vals r).
Proof.
  intros Hd Hne Hk Hd0 Hr. rewrite sum_step by done.
  apply Qcplus_le_compat; [done |].
  apply Qcmult_le_mono_nonneg_l; [done |].
  rewrite <-map_rank_of_keys by (unfold is_dict; by rewrite Hk).
  rewrite Hk, <-(map_on_keys (rank_of r) corpus).
  apply Qcsum_le. intros [i links] Hin. cbn [fst snd].
  rewrite <-(Qcmult_1_r (rank_of r i)) at 2.
  apply Qcmult_le_mono_nonneg_l; [by apply rank_of_nonneg |].
  by apply weight_sum.
Qed.

Lemma sum_uniform (corpus : graph) :
  corpus ≠ [] → Qcsum (vals (uniform corpus)) = 1.
Proof.
  intros Hne. pose proof (corpus_len_nonzero corpus Hne) as HN.
  unfold uniform.
  rewrite (vals_map_build (λ _ _, 1 / Qc_of_Z (len corpus))).
  rewrite Qcsum_const. fold (len corpus). field. done.
Qed.

Lemma iterates_sum_closed d (corpus : graph) j :
  is_dict corpus → corpus ≠ [] → closed corpus →
  Qcsum (vals (iterates d corpus j)) = 1.
Proof.
  intros Hd Hne Hc. induction j as [|j IH]; cbn [iterates].
  - by apply sum_uniform.
  - rewrite sum_step_closed, IH by (done || apply keys_iterates). ring.
Qed.

Lemma iterates_nonneg (corpus : graph) j :
  corpus ≠ [] → Forall (λ v, 0 ≤ v) (vals (iterates DAMPING corpus j)).
Proof.
  intros Hne. eapply Forall_impl; [by apply iterates_lower_bound |].
  intros v Hv. cbn beta in Hv.
  eapply Qcle_trans; [| exact Hv].
  by apply Qclt_le_weak, damping_floor_pos.
Qed.

Lemma iterates_sum_le (corpus : graph) j :
  is_dict corpus → corpus ≠ [] →
  Qcsum (vals (iterates DAMPING corpus j)) ≤ 1.
Proof.
  intros Hd Hne. induction j as [|j IH]; cbn [iterates].
  - by rewrite sum_uniform.
  - eapply Qcle_trans.
    { apply sum_step_le;
        [done | done | apply keys_iterates | by_compute
        | by apply iterates_nonneg]. }
    apply (Qcmult_le_mono_nonneg_l _ _ DAMPING) in IH; [| by_compute].
    revert IH. generalize (Qcsum (vals (iterates DAMPING corpus j))).
    intros x Hx. qc2q. lra.
Qed.

(** X9. On a closed graph the ranks [iterate_pagerank] returns sum to
    exactly 1. *)
Theorem iterate_pagerank_sum_one (corpus : graph) d depth :
  is_dict corpus → corpus ≠ [] → closed corpus → (47 ≤ depth)%nat →
  ∃ r, run_iterate_pagerank depth corpus d = Ok r ∧ Qcsum (vals r) = 1.
Proof.
  intros Hd Hne Hc Hdepth.
  destruct (iterate_pure_converges corpus depth Hd Hne Hdepth)
    as (m & _ & Hpure & _).
  exists (iterates DAMPING corpus (S m)).
  split; [by apply run_iterate_pagerank_pure | by apply iterates_sum_closed].
Qed.

Lemma iterate_pagerank_sum_one_witness :
  ∃ r, run_iterate_pagerank 1000 three_pages DAMPING = Ok r
    ∧ Qcsum (vals r) = 1.
Proof.
  apply (iterate_pagerank_sum_one three_pages DAMPING 1000).
  - unfold is_dict. by_compute.
  - done.
  - unfold closed. by_compute.
  - lia.
Defined.

(** X10. In exact arithmetic, on any non-empty graph the ranks
    [iterate_pagerank] returns sum to at most 1: what a page passes to
    links outside the graph is lost.  (In floating point the sum can
    exceed 1 by rounding errors.) *)
Theorem iterate_pagerank_sum_le_one (corpus : graph) d depth :
  is_dict corpus → corpus ≠ [] → (47 ≤ depth)%nat →
  ∃ r, run_iterate_pagerank depth corpus d = Ok r ∧ Qcsum (vals r) ≤ 1.
Proof.
  intros Hd Hne Hdepth.
  destruct (iterate_pure_converges corpus depth Hd Hne Hdepth)
    as (m & _ & Hpure & _).
  exists (iterates DAMPING corpus (S m)).
  split; [by apply run_iterate_pagerank_pure | by apply iterates_sum_le].
Qed.

Lemma iterate_pagerank_sum_le_one_witness :
  ∃ r, run_iterate_pagerank 1000 [("a", {["b"]})] DAMPING = Ok r
    ∧ Qcsum (vals r) ≤ 1.
Proof.
  apply (iterate_pagerank_sum_le_one [("a", {["b"]})] DAMPING 1000).
  - unfold is_dict. by_compute.
  - done.
  - lia.
Defined.

(** X11. Two calls in a row: the second call returns a different dict
    object and leaves the dict returned by the first call as it was,
    although both go through the global [temp], which ends up bound to
    the second result. *)
Theorem iterate_pagerank_twice (corpus1 corpus2 : graph) d1 d2 depth s :
  is_dict corpus1 → corpus1 ≠ [] → is_dict corpus2 → corpus2 ≠ [] →
  (47 ≤ depth)%nat →
  ∃ l1 s1 l2 s2,
    iterate_pagerank depth corpus1 d1 s = (Ok l1, s1)
    ∧ iterate_pagerank depth corpus2 d2 s1 = (Ok l2, s2)
    ∧ l1 ≠ l2
    ∧ is_Some (heap s1 !! l1)
    ∧ heap s2 !! l1 = heap s1 !! l1
    ∧ temp s2 = Some l2.
Proof.
  intros Hd1 Hne1 Hd2 Hne2 Hdepth.
  destruct (iterate_pure_converges corpus1 depth Hd1 Hne1 Hdepth)
    as (m1 & _ & Hpure1 & _).
  destruct (iterate_pure_converges corpus2 depth Hd2 Hne2 Hdepth)
    as (m2 & _ & Hpure2 & _).
  destruct (iterate_pagerank_refines corpus1 depth d1 s Hd1 Hne1)
    as (s1 & _ & Hres1).
  rewrite Hpure1 in Hres1. destruct Hres1 as (l1 & Hrun1 & _ & Hl1 & _).
  destruct (iterate_pagerank_refines corpus2 depth d2 s1 Hd2 Hne2)
    as (s2 & Hpre & Hres2).
  rewrite Hpure2 in Hres2. destruct Hres2 as (l2 & Hrun2 & Htmp & _ & Hfresh).
  exists l1, s1, l2, s2.
  pose proof (lookup_lt_Some _ _ _ Hl1) as Hlt.
  split; [done |]. split; [done |]. split; [lia |].
  split; [by rewrite Hl1 |]. split; [| done].
  rewrite Hl1. by eapply prefix_lookup_Some.
Qed.

Lemma iterate_pagerank_twice_witness :
  ∃ l1 s1 l2 s2,
    iterate_pagerank 1000 three_pages DAMPING init_state = (Ok l1, s1)
    ∧ iterate_pagerank 1000 dangling_pair DAMPING s1 = (Ok l2, s2)
    ∧ l1 ≠ l2
    ∧ is_Some (heap s1 !! l1)
    ∧ heap s2 !! l1 = heap s1 !! l1
    ∧ temp s2 = Some l2.
Proof.
  apply (iterate_pagerank_twice three_pages dangling_pair DAMPING DAMPING
           1000 init_state).
  - unfold is_dict. by_compute.
  - done.
  - unfold is_dict. by_compute.
  - done.
  - lia.
Defined.

Lemma iterate_pure_overflow (corpus : graph) (depth : nat) :
  ∀ j,
    (∀ i, (i < depth)%nat →
       threshold < delta (iterates DAMPING corpus (j + i))
                         (iterates DAMPING corpus (S (j + i)))) →
    iterate_pure depth corpus (iterates DAMPING corpus j)
    = Raise RecursionError.
Proof.
  induction depth as [|depth IH]; intros j Hall; cbn [iterate_pure]; [done |].
  pose proof (Hall 0%nat ltac:(lia)) as H0.
  rewrite Nat.add_0_r in H0. cbn [iterates] in H0.
  rewrite decide_True by done.
  change (pagerank_step DAMPING corpus (iterates DAMPING corpus j))
    with (iterates DAMPING corpus (S j)).
  apply IH. intros i Hi. specialize (Hall (S i) ltac:(lia)).
  by replace (j + S i)%nat with (S j + i)%nat in Hall by lia.
Qed.

(** X12. There is no other stop than the threshold: when each of the
    first [depth] rounds still moves some rank by more than 0.001, a
    recursion limit of [depth] frames is exhausted and the call fails
    with [RecursionError]. *)
Theorem iterate_pagerank_recursion_limit (corpus : graph) d depth :
  is_dict corpus → corpus ≠ [] →
  (∀ i, (i < depth)%nat →
     Q2Qc (1 # 1000) < delta (iterates DAMPING corpus i)
                             (iterates DAMPING corpus (S i))) →
  run_iterate_pagerank depth corpus d = Raise RecursionError.
Proof.
  intros Hd Hne Hall.
  pose proof (iterate_pure_overflow corpus depth 0 Hall) as Hpure.
  destruct (iterate_pagerank_refines corpus depth d init_state Hd Hne)
    as (s' & _ & Hres).
  cbn [iterates] in Hpure. rewrite Hpure in Hres.
  unfold run_iterate_pagerank. by rewrite Hres.
Qed.

Lemma iterate_pagerank_recursion_limit_witness :
  run_iterate_pagerank 3 three_pages DAMPING = Raise RecursionError.
Proof.
  apply (iterate_pagerank_recursion_limit three_pages DAMPING 3).
  - unfold is_dict. by_compute.
  - done.
  - intros i Hi. destruct i as [|[|[|i]]]; [by_compute.. | lia].
Defined.

(** X13. On a graph of one page without links both estimators give that
    page rank exactly 1 ([sample_pagerank] for positive damping). *)
Theorem single_page_rank (p : string) d n g depth :
  0 < d → d ≤ 1 → (1 ≤ n)%Z → (1 ≤ depth)%nat →
  sample_pagerank [(p, ∅)] d n g = Ok [(p, 1)]
  ∧ run_iterate_pagerank depth [(p, ∅)] d = Ok [(p, 1)].
Proof.
  intros Hd0 Hd1 Hn Hdepth.
  assert (is_dict ([(p, ∅)] : graph)) as Hd.
  { unfold is_dict. cbn. apply NoDup_singleton. }
  assert (closed [(p, ∅ : gset string)]) as Hc.
  { unfold closed. apply Forall_singleton. cbn. set_solver. }
  split.
  - destruct (sample_pagerank_ranks [(p, ∅)] d n g Hd ltac:(done) Hc Hd0 Hd1 Hn)
      as (ranks & -> & Hk & _ & Hsum).
    destruct ranks as [|[k v] [|? ?]]; try done.
    cbn in Hk. injection Hk as ->. f_equal. f_equal. f_equal.
    unfold Qcsum in Hsum. cbn in Hsum. by rewrite Qcplus_0_r in Hsum.
  - apply run_iterate_pagerank_pure; [done | done |].
    destruct depth as [|depth]; [lia |]. cbn [iterate_pure].
    assert (pagerank_step DAMPING [(p, ∅)] (uniform [(p, ∅)]) = [(p, 1)])
      as Hstep.
    { unfold pagerank_step, uniform, update. cbn [map fst snd].
      unfold contribution, rank_of. cbn [fst snd get].
      rewrite size_empty, !decide_True by done. cbn [default from_option id].
      f_equal. f_equal. unfold Qcsum. cbn [foldr]. by apply Qc_is_canon. }
    rewrite Hstep.
    assert (delta (uniform [(p, ∅)]) [(p, 1)] = 0) as ->.
    { unfold delta, uniform, rank_of. cbn [map fst snd get].
      rewrite decide_True by done. cbn [default from_option id foldr].
      by apply Qc_is_canon. }
    by rewrite decide_False by by_compute.
Qed.

Lemma single_page_rank_witness :
  sample_pagerank [("a.html", ∅)] DAMPING 10 fixed_rng = Ok [("a.html", 1)]
  ∧ run_iterate_pagerank 1000 [("a.html", ∅)] DAMPING = Ok [("a.html", 1)].
Proof.
  apply (single_page_rank "a.html" DAMPING 10 fixed_rng 1000).
  - by_compute.
  - by_compute.
  - lia.
  - lia.
Defined.

(** ** [crawl] followed by the estimators, as [main] runs them *)

Lemma crawl_nonempty findall (directory : list (string * string)) pages f c :
  NoDup directory.*1 → crawl findall directory = Ok pages →
  (f, c) ∈ directory → endswith f ".html" = true → pages ≠ [].
Proof.
  intros Hnd Hc Hin He ->.
  pose proof (crawl_keys findall directory [] Hnd Hc) as Hk.
  assert (f ∈ (html_files directory).*1) as Hf.
  { apply list_elem_of_fmap. exists (f, c). split; [done |].
    unfold html_files. by apply list_elem_of_filter. }
  rewrite <-Hk in Hf. by apply elem_of_nil in Hf.
Qed.

(** X14. For a directory that holds at least one [.html] file and
    [n >= 1], sampling the crawled graph with the damping 0.85 that
    [main] passes succeeds: the crawled graph is closed, so every
    transition distribution has a positive total weight.  The result
    gives every crawled page the number of its visits in a walk of [n]
    pages, divided by [n]; the visit counts sum to exactly [n] and every
    rank lies in [0,1]. *)
Theorem crawl_then_sample findall (directory : list (string * string))
    f c n g :
  NoDup directory.*1 → (f, c) ∈ directory → endswith f ".html" = true →
  (1 ≤ n)%Z →
  ∃ pages walk, crawl findall directory = Ok pages
    ∧ positive_weights pages DAMPING
    ∧ sample_pagerank pages DAMPING n g = Ok (frequencies pages walk n)
    ∧ keys (frequencies pages walk n) = keys pages
    ∧ Z.of_nat (length walk) = n
    ∧ Zsum (map (visit_count walk) (keys pages)) = n
    ∧ Forall (λ v, 0 ≤ v ∧ v ≤ 1) (vals (frequencies pages walk n)).
Proof.
  intros Hnd Hin He Hn.
  pose proof (crawl_eq findall directory Hnd) as Hc.
  pose proof (crawl_is_dict findall directory _ Hnd Hc) as Hd.
  pose proof (crawl_nonempty findall directory _ f c Hnd Hc Hin He) as Hne.
  pose proof (crawl_closed_pages findall directory _ Hnd Hc) as Hcl.
  set (pages := map _ (html_files directory)) in *.
  assert (positive_weights pages DAMPING) as Hpos.
  { apply positive_weights_closed; [done | done | by_compute | by_compute]. }
  destruct (choice_nonempty g (keys pages)) as (start & Hstart & Hsin).
  { by destruct pages. }
  destruct (walk_from_positive pages DAMPING g (Z.to_nat (n - 1)) Hd Hpos
              0%nat start Hsin) as (rest & Hrest & Hlen & Hall).
  assert (random_walk pages DAMPING n g = Ok (start :: rest)) as Hwalk.
  { unfold random_walk. rewrite Hstart. rsimpl. by rewrite Hrest. }
  assert (Z.of_nat (length (start :: rest)) = n) as Hlen'.
  { cbn [length]. lia. }
  assert (Forall (.∈ keys pages) (start :: rest)) as Hall'
    by (by constructor).
  exists pages, (start :: rest). split; [done |]. split; [done |].
  split; [| split; [| split; [| split]]].
  - rewrite (sample_pagerank_walk pages DAMPING n g (start :: rest)) by done.
    rewrite decide_False by lia. done.
  - apply (keys_map_build
             (λ k _, Qc_of_Z (visit_count (start :: rest) k) / Qc_of_Z n)).
  - done.
  - by rewrite visit_count_partition.
  - pose proof (frequencies_nonneg pages (start :: rest) n ltac:(lia)) as H0.
    pose proof (frequencies_le_1 pages (start :: rest) n Hlen' ltac:(lia))
      as H1.
    rewrite Forall_forall in H0, H1. apply Forall_forall. intros v Hv.
    split; [by apply H0 | by apply H1].
Qed.

Lemma crawl_then_sample_witness :
  ∃ pages walk, crawl whole_contents sample_directory = Ok pages
    ∧ positive_weights pages DAMPING
    ∧ sample_pagerank pages DAMPING SAMPLES fixed_rng
      = Ok (frequencies pages walk SAMPLES)
    ∧ keys (frequencies pages walk SAMPLES) = keys pages
    ∧ Z.of_nat (length walk) = SAMPLES
    ∧ Zsum (map (visit_count walk) (keys pages)) = SAMPLES
    ∧ Forall (λ v, 0 ≤ v ∧ v ≤ 1) (vals (frequencies pages walk SAMPLES)).
Proof.
  apply (crawl_then_sample whole_contents sample_directory "1.html" "2.html"
           SAMPLES fixed_rng).
  - by_compute.
  - by_compute.
  - reflexivity.
  - unfold SAMPLES. lia.
Defined.

(** X15. For a directory that holds at least one [.html] file, iterating
    on the crawled graph succeeds: it ranks exactly the crawled pages,
    every rank is positive and, in exact arithmetic, the ranks sum to 1
    (the floating-point sum differs from 1 by rounding errors). *)
Theorem crawl_then_iterate findall (directory : list (string * string))
    f c d depth :
  NoDup directory.*1 → (f, c) ∈ directory → endswith f ".html" = true →
  (47 ≤ depth)%nat →
  ∃ pages r, crawl findall directory = Ok pages
    ∧ run_iterate_pagerank depth pages d = Ok r
    ∧ keys r = keys pages
    ∧ Forall (λ v, 0 < v) (vals r)
    ∧ Qcsum (vals r) = 1.
Proof.
  intros Hnd Hin He Hdepth.
  pose proof (crawl_eq findall directory Hnd) as Hc.
  pose proof (crawl_is_dict findall directory _ Hnd Hc) as Hd.
  pose proof (crawl_nonempty findall directory _ f c Hnd Hc Hin He) as Hne.
  pose proof (crawl_closed_pages findall directory _ Hnd Hc) as Hcl.
  destruct (iterate_pure_converges _ depth Hd Hne Hdepth)
    as (m & _ & Hpure & _).
  eexists _, _. split; [exact Hc |].
  split; [by apply run_iterate_pagerank_pure |].
  split; [apply keys_iterates |]. split; [| by apply iterates_sum_closed].
  eapply Forall_impl; [by apply iterates_lower_bound |].
  intros v Hv. cbn beta in Hv.
  eapply Qclt_le_trans; [by apply damping_floor_pos | exact Hv].
Qed.

Lemma crawl_then_iterate_witness :
  ∃ pages r, crawl whole_contents sample_directory = Ok pages
    ∧ run_iterate_pagerank 1000 pages DAMPING = Ok r
    ∧ keys r = keys pages
    ∧ Forall (λ v, 0 < v) (vals r)
    ∧ Qcsum (vals r) = 1.
Proof.
  apply (crawl_then_iterate whole_contents sample_directory "1.html" "2.html"
           DAMPING 1000).
  - by_compute.
  - by_compute.
  - reflexivity.
  - lia.
Defined.

(** X16. For a directory without any [.html] file [crawl] returns the
    empty graph, and the first estimator run on it, [sample_pagerank],
    fails with [IndexError]. *)
Theorem crawl_no_pages findall (directory : list (string * string)) d n g :
  NoDup directory.*1 →
  (∀ f, f ∈ directory.*1 → endswith f ".html" = false) →
  crawl findall directory = Ok []
  ∧ sample_pagerank [] d n g = Raise IndexError.
Proof.
  intros Hnd Hall. split.
  - rewrite crawl_eq by done.
    assert (html_files directory = []) as ->; [| done].
    unfold html_files.
    destruct (filter _ directory) as [|[f c] l] eqn:E; [done |].
    assert ((f, c) ∈ filter (λ fc, endswith fc.1 ".html" = true) directory)
      as Hin by (rewrite E; left).
    apply list_elem_of_filter in Hin as [He Hin]. cbn [fst] in He.
    rewrite Hall in He; [done |]. apply list_elem_of_fmap. by exists (f, c).
  - unfold sample_pagerank. cbn [items foldM]. rsimpl.
    change (keys ([] : graph)) with (@nil string).
    by rewrite choice_empty.
Qed.

Lemma crawl_no_pages_witness :
  crawl whole_contents [("notes.txt", "1.html")] = Ok []
  ∧ sample_pagerank [] DAMPING SAMPLES fixed_rng = Raise IndexError.
Proof.
  apply (crawl_no_pages whole_contents [("notes.txt", "1.html")]
           DAMPING SAMPLES fixed_rng).
  - by_compute.
  - intros f Hf. apply list_elem_of_fmap in Hf as (fc & -> & Hfc).
    apply list_elem_of_singleton in Hfc as ->. reflexivity.
Defined.
